(** * SEO analyzer server: the analysis and keyword-insertion core

    A shallow embedding of [server/index.js]: the two functions
    [analyzeSEO] and [insertKeywordIntelligently] and the two routes
    [/api/analyze] and [/api/insert-keyword] that call them.

    Modelling conventions.

    - Strings are lists of characters.  A character is an [ascii], read as
      a code unit in U+0000..U+00FF (Latin-1); texts with code units above
      U+00FF are outside this model.  On that range [\s], [trim], [\w] and
      [toLowerCase] are the functions below.
    - JavaScript numbers are modelled by exact rationals ([Q]) and, where
      the code only ever holds integers, by [Z] or [nat]; rounding of the
      double-precision operations is not modelled.  Where sentences are
      ranked, the scores compared are at least [1 / (100 * len)] apart
      (lemma [scores_apart]), orders of magnitude more than the
      rounding of the handful of operations that compute a score.
    - [Math.random()] is drawn from an explicit source threaded through the
      code in evaluation order.
    - A regular-expression [split] is written as the scanner it is: one
      pass over the characters, left to right, greedy. *)

From Stdlib Require Import ZArith QArith Qround Qminmax Qabs Lqa Lia.
From Stdlib Require Import Ascii String List Sorted.
From stdpp Require Import base list.
Import ListNotations.

Abbreviation str := (list ascii).

(** String literals of the source, as character lists. *)
Definition lit (s : string) : str := list_ascii_of_string s.

(** ** Character classes *)

Definition code (c : ascii) : N := N_of_ascii c.

(** [\s] on Latin-1: TAB, LF, VT, FF, CR, SPACE and NBSP.  [trim] strips
    the same characters. *)
Definition is_space (c : ascii) : bool :=
  ((9 <=? code c) && (code c <=? 13) || (code c =? 32) || (code c =? 160))%N.

(** The class [[.!?]]. *)
Definition is_punct (c : ascii) : bool :=
  ((code c =? 46) || (code c =? 33) || (code c =? 63))%N.

(** [\w]: letters, digits and the underscore. *)
Definition is_word_char (c : ascii) : bool :=
  ((48 <=? code c) && (code c <=? 57) || (65 <=? code c) && (code c <=? 90)
   || (97 <=? code c) && (code c <=? 122) || (code c =? 95))%N.

Definition is_newline (c : ascii) : bool := (code c =? 10)%N.

Definition lower_char (c : ascii) : ascii :=
  if ((65 <=? code c) && (code c <=? 90)
      || (192 <=? code c) && (code c <=? 222) && negb (code c =? 215))%N
  then ascii_of_N (code c + 32) else c.

(** ** String methods *)

Definition toLowerCase (s : str) : str := map lower_char s.

Fixpoint trimStart (s : str) : str :=
  match s with
  | c :: s' => if is_space c then trimStart s' else s
  | [] => []
  end.

Definition trim (s : str) : str := rev (trimStart (rev (trimStart s))).

Fixpoint startsWith (s k : str) {struct k} : bool :=
  match k, s with
  | [], _ => true
  | a :: k', b :: s' => Ascii.eqb a b && startsWith s' k'
  | _ :: _, [] => false
  end.

(** [s.includes(k)]: [k] occurs in [s] at some position. *)
Fixpoint includes (s k : str) : bool :=
  startsWith s k ||
  match s with
  | [] => false
  | _ :: s' => includes s' k
  end.

Definition str_eqb (a b : str) : bool :=
  (length a =? length b)%nat && startsWith a b.

(** [l.join(sep)] *)
Fixpoint join (sep : str) (l : list str) : str :=
  match l with
  | [] => []
  | x :: l' =>
      match l' with
      | [] => x
      | _ :: _ => x ++ sep ++ join sep l'
      end
  end.

(** ** Splitting on a regular expression

    The head of every result below is the piece being scanned; a character
    is pushed on it by [push]. *)

Definition push (c : ascii) (pieces : list str) : list str :=
  match pieces with
  | p :: ps => (c :: p) :: ps
  | [] => [[c]]
  end.

(** [s.split(/[sep]+/)]: [in_run] tells that the previous character belongs
    to the separator run being skipped.  A separator run at the start or
    the end leaves an empty piece there, as in JavaScript. *)
Fixpoint fields (sep : ascii -> bool) (in_run : bool) (s : str) : list str :=
  match s with
  | [] => [[]]
  | c :: s' =>
      if sep c then
        if in_run then fields sep true s' else [] :: fields sep true s'
      else push c (fields sep false s')
  end.

Definition split_on (sep : ascii -> bool) (s : str) : list str :=
  fields sep false s.

(** [text.split] on the capturing pattern of [insertKeywordIntelligently]:
    one or more of [.!?] followed by any white space, in a group.  The
    group puts every separator in the result, so pieces alternate
    sentence, separator, sentence, ...  The
    scanner is in a sentence, in the punctuation of a separator, or in the
    white space that ends a separator. *)
Inductive scan := InSentence | InPunct | InSpace.

Fixpoint pieces (st : scan) (s : str) : list str :=
  match s with
  | [] =>
      match st with
      | InSentence => [[]]
      | InPunct | InSpace => [[]; []]
      end
  | c :: s' =>
      match st with
      | InSentence =>
          if is_punct c then [] :: push c (pieces InPunct s')
          else push c (pieces InSentence s')
      | InPunct =>
          if is_punct c then push c (pieces InPunct s')
          else if is_space c then push c (pieces InSpace s')
          else [] :: push c (pieces InSentence s')
      | InSpace =>
          if is_space c then push c (pieces InSpace s')
          else if is_punct c then [] :: [] :: push c (pieces InPunct s')
          else [] :: push c (pieces InSentence s')
      end
  end.

Definition split_sentences (s : str) : list str := pieces InSentence s.

(** [\n\s*\n] tried at a line feed whose tail is [s]: the greedy [\s*]
    backs off to the last line feed of the white space that follows.  The
    result is the number of characters of [s] the match covers. *)
Fixpoint blank_lines (s : str) : option nat :=
  match s with
  | c :: s' =>
      if is_space c then
        match blank_lines s' with
        | Some n => Some (S n)
        | None => if is_newline c then Some 1%nat else None
        end
      else None
  | [] => None
  end.

(** [s.split(/\n\s*\n/)]: [skip] counts the characters of a match still to
    be passed over. *)
Fixpoint paragraphs_from (skip : nat) (s : str) : list str :=
  match s with
  | [] => [[]]
  | c :: s' =>
      match skip with
      | S k => paragraphs_from k s'
      | O =>
          if is_newline c then
            match blank_lines s' with
            | Some n => [] :: paragraphs_from n s'
            | None => push c (paragraphs_from 0 s')
            end
          else push c (paragraphs_from 0 s')
      end
  end.

Definition split_paragraphs (s : str) : list str := paragraphs_from 0 s.

(** ** Numbers and the random source *)

Definition num (n : nat) : Q := inject_Z (Z.of_nat n).

(** [Math.round]: the nearest integer, halves upwards. *)
Definition Math_round (x : Q) : Z := Qfloor (x + 0.5)%Q.

(** The source is the sequence of raw draws still to come; a computation
    that draws returns the rest of the sequence with its result. *)
Definition rng := nat -> N.

Definition Rand (A : Type) : Type := rng -> A * rng.

Definition ret {A} (a : A) : Rand A := fun r => (a, r).

Definition bind {A B} (m : Rand A) (k : A -> Rand B) : Rand B :=
  fun r => let (a, r') := m r in k a r'.

Notation "'let*' x ':=' m 'in' k" := (bind m (fun x => k))
  (at level 10, x name, m at level 100, k at level 200).

(** [Math.random()]: a multiple of 2^-53 in [0, 1). *)
Definition Math_random : Rand Q :=
  fun r => ((inject_Z (Z.of_N (r 0%nat mod 2 ^ 53)) / inject_Z (2 ^ 53))%Q,
            fun n => r (S n)).

(** [Math.floor(Math.random() * k)] *)
Definition random_below (k : Z) : Rand Z :=
  let* u := Math_random in ret (Qfloor (u * inject_Z k)%Q).

(** [l.map(f)] for an [f] that draws: elements are visited in order. *)
Fixpoint mapM {A B} (f : A -> Rand B) (l : list A) : Rand (list B) :=
  match l with
  | [] => ret []
  | x :: l' => let* y := f x in let* ys := mapM f l' in ret (y :: ys)
  end.

(** ** The object [wordFreq]

    [wordFreq] is a plain object literal, so a property that is not its
    own is looked up on [Object.prototype].  Every key the code uses is
    lower case; of the names [Object.prototype] defines, the two without a
    capital letter are [constructor] and [__proto__]. *)

Inductive value :=
| VUndefined
| VNaN
| VNumber (n : Z)
| VString (s : str)
| VObjectFunction     (* the function [Object] *)
| VObjectPrototype.   (* the object [Object.prototype] *)

(** Own properties, in the order they were created. *)
Abbreviation object := (list (str * value)).

Fixpoint own_get (o : object) (k : str) : option value :=
  match o with
  | [] => None
  | (k', v) :: o' => if str_eqb k' k then Some v else own_get o' k
  end.

Definition prototype_get (k : str) : value :=
  if str_eqb k (lit "constructor") then VObjectFunction
  else if str_eqb k (lit "__proto__") then VObjectPrototype
  else VUndefined.

(** [o[k]] *)
Definition get (o : object) (k : str) : value :=
  match own_get o k with
  | Some v => v
  | None => prototype_get k
  end.

Fixpoint own_set (o : object) (k : str) (v : value) : object :=
  match o with
  | [] => [(k, v)]
  | (k', v') :: o' =>
      if str_eqb k' k then (k', v) :: o' else (k', v') :: own_set o' k v
  end.

(** [o[k] = v].  The inherited setter of [__proto__] takes the assignment;
    given a primitive it does nothing, given an object it replaces the
    prototype (which the code never does: it only assigns the result of
    an addition). *)
Definition set (o : object) (k : str) (v : value) : object :=
  if str_eqb k (lit "__proto__") then o else own_set o k v.

Definition truthy (v : value) : bool :=
  match v with
  | VUndefined | VNaN => false
  | VNumber n => negb (n =? 0)%Z
  | VString s => negb (length s =? 0)%nat
  | VObjectFunction | VObjectPrototype => true
  end.

(** [v || d] *)
Definition or_else (v d : value) : value := if truthy v then v else d.

(** The text [String(Object)] as V8 prints it. *)
Definition Object_source : str := lit "function Object() { [native code] }".

(** [v + 1]: addition on numbers, concatenation as soon as [v] converts to
    a string. *)
Definition plus_one (v : value) : value :=
  match v with
  | VUndefined | VNaN => VNaN
  | VNumber n => VNumber (n + 1)
  | VString s => VString (s ++ lit "1")
  | VObjectFunction => VString (Object_source ++ lit "1")
  | VObjectPrototype => VString (lit "[object Object]" ++ lit "1")
  end.

(** A key that is a canonical array index: decimal digits without a
    leading zero, at most 2^32 - 2. *)
Fixpoint decimal (acc : N) (s : str) : option N :=
  match s with
  | [] => Some acc
  | c :: s' =>
      if ((48 <=? code c) && (code c <=? 57))%N
      then decimal (10 * acc + (code c - 48)) s'
      else None
  end.

Definition array_index (k : str) : option N :=
  match k with
  | [] => None
  | c :: k' =>
      if ((code c =? 48)%N && negb (length k' =? 0)%nat) then None
      else match decimal 0 k with
           | Some n => if (n <=? 4294967294)%N then Some n else None
           | None => None
           end
  end.

Fixpoint insert_index (e : N * (str * value)) (l : list (N * (str * value)))
  : list (N * (str * value)) :=
  match l with
  | [] => [e]
  | e' :: l' => if (fst e <? fst e')%N then e :: l else e' :: insert_index e l'
  end.

Definition indexed (o : object) : list (N * (str * value)) :=
  omap (fun e => match array_index (fst e) with
                 | Some n => Some (n, e)
                 | None => None
                 end) o.

(** [Object.entries(o)]: array-index keys first, in increasing numeric
    order, then the other keys in creation order. *)
Definition entries (o : object) : list (str * value) :=
  map snd (fold_right insert_index [] (indexed o))
  ++ List.filter (fun e => match array_index (fst e) with
                           | Some _ => false
                           | None => true
                           end) o.

(** ** [Array.prototype.sort] with the comparator [b - a] *)

(** [ToNumber], [None] for NaN.  The strings that reach it start with the
    word function and are not numerals. *)
Definition to_number (v : value) : option Z :=
  match v with
  | VNumber n => Some n
  | _ => None
  end.

(** [b - a] where [a] and [b] are the values of the entries [x] and [y]. *)
Definition compare_entries (x y : str * value) : option Z :=
  match to_number (snd y), to_number (snd x) with
  | Some b, Some a => Some (b - a)%Z
  | _, _ => None
  end.

(** The comparator is negative: [x] must come before [y].  NaN counts as
    zero. *)
Definition comes_before (x y : str * value) : bool :=
  match compare_entries x y with
  | Some d => (d <? 0)%Z
  | None => false
  end.

(** [x] goes in front of the first entry it must come before. *)
Fixpoint insert_entry (x : str * value) (l : list (str * value))
  : list (str * value) :=
  match l with
  | [] => [x]
  | y :: l' => if comes_before x y then x :: l else y :: insert_entry x l'
  end.

(** The sort is stable; for a consistent comparator every stable sort
    gives this result. *)
Definition sort_entries (l : list (str * value)) : list (str * value) :=
  fold_left (fun acc x => insert_entry x acc) l [].

(** ** [analyzeSEO] *)

Inductive Priority := Low | Medium | High.

Inductive SuggestionType := Readability | Length | Keywords.

Record Suggestion := {
  type : SuggestionType;
  message : string;
  priority : Priority
}.

Record Keyword := {
  keyword : str;
  frequency : value;
  relevance : option Q;        (* [None] is NaN *)
  searchVolume : Z;
  difficulty : Z
}.

Record Metrics := {
  wordCount : nat;
  sentenceCount : nat;
  paragraphCount : nat;
  readabilityScore : Z;
  avgWordsPerSentence : Q;
  avgSentencesPerParagraph : Q
}.

Record AnalysisResult := {
  metrics : Metrics;
  keywords : list Keyword;
  suggestions : list Suggestion
}.

Definition commonWords : list str :=
  map lit
    ["the"; "and"; "or"; "but"; "in"; "on"; "at"; "to"; "for"; "of"; "with";
     "by"; "is"; "are"; "was"; "were"; "be"; "been"; "have"; "has"; "had";
     "do"; "does"; "did"; "will"; "would"; "could"; "should"; "may"; "might";
     "can"; "must"; "shall"; "a"; "an"; "this"; "that"; "these";
     "those"]%string.

Definition vocabulary : list str :=
  map lit
    ["digital marketing"; "content strategy"; "SEO optimization";
     "online presence"; "brand awareness"; "user engagement";
     "conversion rate"; "social media"; "target audience"; "market research";
     "competitive analysis"; "growth hacking"]%string.

Definition nonblank (s : str) : bool := (0 <? length (trim s))%nat.

Definition tokenize_words (text : str) : list str :=
  List.filter (fun word => (0 <? length word)%nat) (split_on is_space text).

Definition tokenize_sentences (text : str) : list str :=
  List.filter nonblank (split_on is_punct text).

Definition tokenize_paragraphs (text : str) : list str :=
  List.filter nonblank (split_paragraphs text).

(** The body of [words.forEach]. *)
Definition count_word (wordFreq : object) (word : str) : object :=
  let cleanWord := List.filter is_word_char (toLowerCase word) in
  if (3 <? length cleanWord)%nat
     && negb (existsb (str_eqb cleanWord) commonWords)
  then set wordFreq cleanWord (plus_one (or_else (get wordFreq cleanWord) (VNumber 0)))
  else wordFreq.

Definition word_frequencies (words : list str) : object :=
  fold_left count_word words [].

(** The score before rounding, from the average sentence length. *)
Definition readability_of (avgWordsPerSentence : Q) : Q :=
  let avgSentenceLength := avgWordsPerSentence in
  let avgSyllablesPerWord := 1.5%Q in
  Qmax 0 (Qmin 100
    (206.835 - 1.015 * avgSentenceLength - 84.6 * avgSyllablesPerWord))%Q.

Definition average (n d : nat) : Q :=
  if (0 <? d)%nat then (num n / num d)%Q else 0%Q.

(** [Math.min(100, (freq / words.length) * 1000)] *)
Definition relevance_of (freq : value) (words : nat) : option Q :=
  match to_number freq with
  | Some f => Some (Qmin 100 (inject_Z f / num words * 1000))%Q
  | None => None
  end.

Definition top_keyword (words : nat) (e : str * value) : Rand Keyword :=
  let* sv := random_below 10000 in
  let* d := random_below 100 in
  ret {| keyword := fst e;
         frequency := snd e;
         relevance := relevance_of (snd e) words;
         searchVolume := sv + 100;
         difficulty := d + 1 |}.

Definition suggested_keyword (k : str) : Rand Keyword :=
  let* rel := random_below 80 in
  let* sv := random_below 50000 in
  let* d := random_below 100 in
  ret {| keyword := k;
         frequency := VNumber 0;
         relevance := Some (inject_Z (rel + 20));
         searchVolume := sv + 1000;
         difficulty := d + 1 |}.

Definition readability_suggestion (readabilityScore : Q) : Suggestion :=
  {| type := Readability;
     message :=
       if Qlt_le_dec readabilityScore 30
       then "Text is quite difficult to read. Consider shorter sentences."
       else if Qlt_le_dec readabilityScore 60
       then "Text readability is moderate. Could be improved with simpler language."
       else "Text has good readability for general audience.";
     priority :=
       if Qlt_le_dec readabilityScore 30 then High
       else if Qlt_le_dec readabilityScore 60 then Medium else Low |}.

Definition length_suggestion (words : nat) : Suggestion :=
  {| type := Length;
     message :=
       if (words <? 300)%nat
       then "Content is quite short. Consider expanding for better SEO."
       else if (2000 <? words)%nat
       then "Content is very long. Consider breaking into sections."
       else "Content length is appropriate for SEO.";
     priority :=
       if (words <? 300)%nat || (2000 <? words)%nat then Medium else Low |}.

Definition keywords_suggestion (topKeywords : nat) : Suggestion :=
  {| type := Keywords;
     message :=
       if (topKeywords <? 5)%nat
       then "Limited keyword diversity. Consider adding more relevant terms."
       else "Good keyword diversity detected.";
     priority := if (topKeywords <? 5)%nat then High else Low |}.

Definition analyzeSEO (text : str) : Rand AnalysisResult :=
  let words := tokenize_words text in
  let sentences := tokenize_sentences text in
  let paragraphs := tokenize_paragraphs text in
  let avgWordsPerSentence := average (length words) (length sentences) in
  let avgSentencesPerParagraph :=
    average (length sentences) (length paragraphs) in
  let readabilityScore := readability_of avgWordsPerSentence in
  let wordFreq := word_frequencies words in
  let* topKeywords :=
    mapM (top_keyword (length words))
         (take 10 (sort_entries (entries wordFreq))) in
  let* suggestedKeywords := mapM suggested_keyword vocabulary in
  let allKeywords := topKeywords ++ take 8 suggestedKeywords in
  ret {| metrics :=
           {| wordCount := length words;
              sentenceCount := length sentences;
              paragraphCount := length paragraphs;
              readabilityScore := Math_round readabilityScore;
              avgWordsPerSentence :=
                (inject_Z (Math_round (avgWordsPerSentence * 10)) / 10)%Q;
              avgSentencesPerParagraph :=
                (inject_Z (Math_round (avgSentencesPerParagraph * 10)) / 10)%Q |};
         keywords := allKeywords;
         suggestions :=
           [readability_suggestion readabilityScore;
            length_suggestion (length words);
            keywords_suggestion (length topKeywords)] |}.

(** ** The route [/api/analyze] *)

Inductive response (A : Type) :=
| Ok (data : A)              (* 200, success *)
| BadRequest (error : string).   (* 400, the validation error *)
Arguments Ok {A} data.
Arguments BadRequest {A} error.

Definition api_analyze (text : str) : Rand (response AnalysisResult) :=
  if (length text =? 0)%nat || (length (trim text) =? 0)%nat
  then ret (BadRequest "Text is required")
  else if (50000 <? Z.of_nat (length text))%Z
  then ret (BadRequest "Text is too long (max 50,000 characters)")
  else let* analysis := analyzeSEO text in ret (Ok analysis).

(** ** [insertKeywordIntelligently] *)

Definition connectors : list str :=
  map lit ["including"; "such as"; "like"; "especially"; "particularly"]%string.

(** The score of [sentence = sentences[i]]. *)
Definition score (sentences : list str) (i : nat) (sentence : str) : Q :=
  let sentenceWords := split_on is_space (toLowerCase sentence) in
  let lengthScore := Qmin (num (length sentenceWords) / 20) 1 in
  let positionScore :=
    (1 - Qabs (num i - num (length sentences) / 2) / num (length sentences))%Q in
  (lengthScore * 0.6 + positionScore * 0.4)%Q.

(** The test that lets the loop go on to the next sentence. *)
Definition skipped (sentence : str) : bool :=
  (length sentence =? 0)%nat || (length (trim sentence) <? 10)%nat.

(** One turn of the loop, on [(bestPosition, bestScore)]. *)
Definition visit (sentences : list str) (best : nat * Q) (i : nat) : nat * Q :=
  match sentences !! i with
  | None => best
  | Some sentence =>
      if skipped sentence then best
      else if Qlt_le_dec (snd best) (score sentences i sentence)
           then (i, score sentences i sentence)
           else best
  end.

(** The values of [i] in [for (let i = 0; i < len; i += 2)]. *)
Definition loop_indices (len : nat) : list nat :=
  map (fun k => 2 * k)%nat (seq 0 (Nat.div2 (len + 1))).

Definition find_best (sentences : list str) : nat * Q :=
  fold_left (visit sentences) (loop_indices (length sentences)) (0%nat, 0%Q).

Definition already_present (text keyword : str) : bool :=
  let words := split_on is_space (toLowerCase text) in
  existsb (fun word => includes word (toLowerCase keyword)) words.

(** The sentence with the keyword put in: the two draws are the jitter of
    the insertion index and the choice of the connector. *)
Definition rewrite_sentence (sentence keyword : str) : Rand str :=
  let words := split_on is_space sentence in
  let* jitter := random_below (Qfloor (num (length words) * 0.4)) in
  let insertIndex := Z.to_nat (Qfloor (num (length words) * 0.3) + jitter) in
  let beforeKeyword := join (lit " ") (take insertIndex words) in
  let afterKeyword := join (lit " ") (drop insertIndex words) in
  let* choice := random_below (Z.of_nat (length connectors)) in
  let connector := nth (Z.to_nat choice) connectors (lit "undefined") in
  ret (beforeKeyword ++ lit " " ++ connector ++ lit " " ++ keyword
         ++ lit " " ++ afterKeyword).

Definition insertKeywordIntelligently (text keyword : str) : Rand str :=
  let sentences := split_sentences text in
  if already_present text keyword then ret text
  else
    let bestPosition := fst (find_best sentences) in
    match sentences !! bestPosition with
    | Some sentence =>
        if (0 <? length sentence)%nat then
          let* rewritten := rewrite_sentence sentence keyword in
          ret (concat (<[bestPosition := rewritten]> sentences))
        else ret (concat sentences)
    | None => ret (concat sentences)
    end.

(** ** The route [/api/insert-keyword] *)

Record InsertionResult := {
  updatedText : str;
  inserted : bool
}.

Definition api_insert_keyword (text keyword : str)
  : Rand (response InsertionResult) :=
  if (length text =? 0)%nat || (length keyword =? 0)%nat
  then ret (BadRequest "Text and keyword are required")
  else
    let* updated := insertKeywordIntelligently text keyword in
    ret (Ok {| updatedText := updated;
               inserted := negb (str_eqb updated text) |}).

(** A source for the examples: every draw is [k]. *)
Definition constant_source (k : N) : rng := fun _ => k.

(** ** Notions of the specification *)

(** A character of [text] that starts a word: it is not white space and
    it is the first character or follows white space.  [first] says
    whether position 0 counts as following white space. *)
Definition starts_from (first : bool) (text : str) (i : nat) : bool :=
  match text !! i with
  | Some c =>
      negb (is_space c) &&
      match i with
      | O => first
      | S j => match text !! j with Some p => is_space p | None => false end
      end
  | None => false
  end.

(** The number of maximal runs of characters that are not white space. *)
Definition count_tokens (text : str) : nat :=
  length (List.filter (starts_from true text) (seq 0 (length text))).

(** Empty or white space only. *)
Definition blank (text : str) : Prop := Forall (fun c => is_space c = true) text.

(** [k] occurs in [w]. *)
Definition substring (k w : str) : Prop := exists pre post, w = pre ++ k ++ post.

(** [word] is a word of [text]: an occurrence without white space in
    it, with white space or the end of the text on either side. *)
Definition word_of (text word : str) : Prop :=
  exists pre post,
    text = pre ++ word ++ post /\
    Forall (fun c => is_space c = false) word /\
    (pre = [] \/ exists p c, pre = p ++ [c] /\ is_space c = true) /\
    (post = [] \/ exists c p, post = c :: p /\ is_space c = true).

(** The sentences of a split, without the separators: the pieces at the
    even positions. *)
Fixpoint sentence_segments (l : list str) : list str :=
  match l with
  | [] => []
  | x :: l' =>
      x :: match l' with
           | [] => []
           | _ :: l'' => sentence_segments l''
           end
  end.

(** The score in the words of the specification, for segment [j] of [n]
    segments. *)
Definition claimed_score (n j : nat) (segment : str) : Q :=
  let wordCountInSentence :=
    length (split_on is_space (toLowerCase segment)) in
  let lengthScore := Qmin (num wordCountInSentence / 20) 1 in
  let positionScore := (1 - Qabs (num j - num n / 2) / num n)%Q in
  (0.6 * lengthScore + 0.4 * positionScore)%Q.

(** The segment the code selects has the largest such score among the
    segments of 10 characters and more. *)
Definition selects_claimed_maximum (text : str) : Prop :=
  let segments := sentence_segments (split_sentences text) in
  let chosen := Nat.div2 (fst (find_best (split_sentences text))) in
  forall j segment best,
    segments !! j = Some segment ->
    (10 <= length segment)%nat ->
    segments !! chosen = Some best ->
    (claimed_score (length segments) j segment
     <= claimed_score (length segments) chosen best)%Q.

(** The text starts with a character of a sentence: the first piece of
    its split is not empty. *)
Definition starts_with_sentence (text : str) : Prop :=
  exists first rest, split_sentences text = first :: rest /\ first <> [].

(** [n] calls of the route in a row, each on the text the call before it
    returned: the [inserted] flags of the calls and the last text. *)
Fixpoint repeated_calls (n : nat) (text keyword : str) : Rand (list bool * str) :=
  match n with
  | O => ret ([], text)
  | S n' =>
      let* answer := api_insert_keyword text keyword in
      match answer with
      | Ok result =>
          let* rest := repeated_calls n' (updatedText result) keyword in
          ret (inserted result :: fst rest, snd rest)
      | BadRequest _ => ret ([], text)
      end
  end.

(** ** Notions of the proofs *)

(** The entries [analyzeSEO] turns into its extracted keywords. *)
Definition extracted_entries (text : str) : list (str * value) :=
  take 10 (sort_entries (entries (word_frequencies (tokenize_words text)))).

(** The score before rounding that [analyzeSEO] computes for [text]. *)
Definition raw_readability (text : str) : Q :=
  readability_of
    (average (length (tokenize_words text)) (length (tokenize_sentences text))).

(** The key under which [analyzeSEO] counts a word. *)
Definition cleaned (word : str) : str :=
  List.filter is_word_char (toLowerCase word).

(** A value that is a count: a number, 1 or more. *)
Definition is_count (v : value) : Prop :=
  exists n, v = VNumber n /\ (1 <= n)%Z.

(** The number an entry holds (0 when it holds none). *)
Definition count_of (e : str * value) : Z :=
  match snd e with
  | VNumber n => n
  | _ => 0%Z
  end.

(** Entries in the order of decreasing counts, equal counts allowed. *)
Definition decreasing (l : list (str * value)) : Prop :=
  StronglySorted (fun x y => (count_of y <= count_of x)%Z) l.

(** A candidate of the loop: a piece at an even position that the loop
    does not skip. *)
Definition candidate (sentences : list str) (i : nat) (sentence : str) : Prop :=
  sentences !! i = Some sentence /\ Nat.Even i /\ skipped sentence = false.

(** What the loop has established when the pieces at the positions
    [0, 2, ..., 2 * (a - 1)] have been visited: the best score bounds the
    scores of the candidates seen, and either no candidate was seen or the
    best position is the first candidate with that score. *)
Definition best_so_far (sentences : list str) (a : nat) (best : nat * Q) : Prop :=
  (forall k s, (k < a)%nat -> sentences !! (2 * k)%nat = Some s ->
     skipped s = false -> (score sentences (2 * k) s <= snd best)%Q) /\
  ((fst best = 0%nat /\ snd best = 0%Q /\
    forall k s, (k < a)%nat -> sentences !! (2 * k)%nat = Some s ->
      skipped s = true) \/
   (exists kb s,
      fst best = (2 * kb)%nat /\ (kb < a)%nat /\
      sentences !! (2 * kb)%nat = Some s /\ skipped s = false /\
      snd best = score sentences (2 * kb) s /\
      forall k s', (k < kb)%nat -> sentences !! (2 * k)%nat = Some s' ->
        skipped s' = false ->
        (score sentences (2 * k) s' < score sentences (2 * kb) s)%Q)).

(** The score of the piece at position [i] out of [len], with [words]
    words, multiplied by [100 * len]: an integer. *)
Definition scaled_score (len i words : Z) : Z :=
  3 * len * Z.min words 20 + 40 * len - 20 * Z.abs (2 * i - len).

(** The number of words by one pass: [first] says whether the character
    before the text counts as white space. *)
Fixpoint runs (first : bool) (text : str) : nat :=
  match text with
  | [] => 0
  | c :: text' =>
      if is_space c then runs true text'
      else ((if first then 1 else 0) + runs false text')%nat
  end.

(** The pieces of a split that are not empty, counted. *)
Definition nonempty_count (l : list str) : nat :=
  length (List.filter (fun word => (0 <? length word)%nat) l).

(** The characters of a string that are not white space. *)
Definition letters (s : str) : str :=
  List.filter (fun c => negb (is_space c)) s.

(** ** The client, [SEOAnalyzer.tsx] *)

(** The level shown for a readability score. *)
Record ReadabilityLevel := {
  level : string;
  color : string
}.

Definition getReadabilityLevel (score : Z) : ReadabilityLevel :=
  if (90 <=? score)%Z then {| level := "Very Easy"; color := "text-green-600" |}
  else if (80 <=? score)%Z then {| level := "Easy"; color := "text-green-500" |}
  else if (70 <=? score)%Z
  then {| level := "Fairly Easy"; color := "text-yellow-500" |}
  else if (60 <=? score)%Z then {| level := "Standard"; color := "text-orange-500" |}
  else if (50 <=? score)%Z
  then {| level := "Fairly Difficult"; color := "text-red-500" |}
  else if (30 <=? score)%Z then {| level := "Difficult"; color := "text-red-600" |}
  else {| level := "Very Difficult"; color := "text-red-700" |}.

(** ** Notions of the further properties *)

(** The test of [words.forEach] that lets a word be counted. *)
Definition eligible (word : str) : bool :=
  (3 <? length (cleaned word))%nat
  && negb (existsb (str_eqb (cleaned word)) commonWords).

(** How many of the words are counted under the key [k]. *)
Definition occurrences (k : str) (words : list str) : nat :=
  length (List.filter (fun word => eligible word && str_eqb (cleaned word) k) words).

(** The keys that [words.forEach] leaves in [wordFreq]: the cleaned forms
    of the words that are counted, each of them once. *)
Definition counted_keys (words : list str) : list str :=
  nodup (List.list_eq_dec ascii_dec)
    (map cleaned
       (List.filter
          (fun word => eligible word
                       && negb (str_eqb (cleaned word) (lit "__proto__")))
          words)).

(** A separator of the sentence split: a run of [.!?], not empty, and the
    white space after it. *)
Definition separator (p : str) : Prop :=
  exists marks spaces,
    p = marks ++ spaces /\ marks <> [] /\
    Forall (fun c => is_punct c = true) marks /\
    Forall (fun c => is_space c = true) spaces.

(** A sentence of the split holds none of [.!?]; one that follows a
    separator does not start with white space, which the separator took. *)
Definition sentence (after_separator : bool) (p : str) : Prop :=
  Forall (fun c => is_punct c = false) p /\
  (after_separator = true -> forall c q, p = c :: q -> is_space c = false).

(** Sentences and separators in turn, a sentence first and last. *)
Inductive alternating : bool -> list str -> Prop :=
| alternating_last after_separator p :
    sentence after_separator p -> alternating after_separator [p]
| alternating_more after_separator p sep l :
    sentence after_separator p -> separator sep -> alternating true l ->
    alternating after_separator (p :: sep :: l).

(** All characters are white space or one of [.!?]. *)
Definition no_sentence (text : str) : Prop :=
  Forall (fun c => is_punct c = true \/ is_space c = true) text.

(** * Properties *)

(** ** The model on small inputs *)

Example split_on_space_edges :
  split_on is_space (lit " a  b ") = [[]; lit "a"; lit "b"; []].
Proof. reflexivity. Qed.

Example split_on_punct_runs :
  split_on is_punct (lit "Hi there. Bye!? ok") =
  [lit "Hi there"; lit " Bye"; lit " ok"].
Proof. reflexivity. Qed.

Example split_sentences_keeps_separators :
  split_sentences (lit "Hi there. Bye!? ok") =
  [lit "Hi there"; lit ". "; lit "Bye"; lit "!? "; lit "ok"].
Proof. reflexivity. Qed.

Example split_sentences_adjacent_separators :
  split_sentences (lit ". .") = [[]; lit ". "; []; lit "."; []].
Proof. reflexivity. Qed.

Example split_paragraphs_blank_lines :
  split_paragraphs
    (lit "one" ++ [ascii_of_nat 10; ascii_of_nat 10] ++ lit "two"
       ++ [ascii_of_nat 10; " "%char; ascii_of_nat 10; " "%char] ++ lit "three"
       ++ [ascii_of_nat 10] ++ lit "four")
  = [lit "one"; lit "two";
     " "%char :: lit "three" ++ [ascii_of_nat 10] ++ lit "four"].
Proof. reflexivity. Qed.

Example toLowerCase_latin1 :
  toLowerCase [ascii_of_nat 65; ascii_of_nat 201; ascii_of_nat 215; ascii_of_nat 223]
  = [ascii_of_nat 97; ascii_of_nat 233; ascii_of_nat 215; ascii_of_nat 223].
Proof. reflexivity. Qed.

(** Keys that are array indices come first in [Object.entries]. *)
Example entries_order :
  map fst (entries (word_frequencies (tokenize_words (lit "zebra 2024 lion 1999"))))
  = [lit "1999"; lit "2024"; lit "zebra"; lit "lion"].
Proof. vm_compute. reflexivity. Qed.

Example analyze_scenario :
  let m := metrics (fst (analyzeSEO
             (lit "The quick brown fox jumps. The lazy dog sleeps.")
             (constant_source 0))) in
  wordCount m = 9%nat /\ sentenceCount m = 2%nat /\ paragraphCount m = 1%nat /\
  (avgWordsPerSentence m == 4.5)%Q /\ readabilityScore m = 75%Z.
Proof. vm_compute. repeat split; reflexivity || discriminate. Qed.

Example insert_scenario :
  fst (api_insert_keyword
         (lit "This is a reasonably long sentence about pets and their care. Pets need attention.")
         (lit "nutrition") (constant_source 0))
  = Ok {| updatedText :=
            lit "This is a including nutrition reasonably long sentence about pets and their care. Pets need attention.";
          inserted := true |}.
Proof. vm_compute. reflexivity. Qed.

(** ** The random source *)

Lemma mapM_length {A B} (f : A -> Rand B) (l : list A) (r : rng) :
  length (fst (mapM f l r)) = length l.
Proof.
  revert r. induction l as [|x l IH]; intros r; [done|].
  cbn. unfold bind. destruct (f x r) as [y r1].
  specialize (IH r1). destruct (mapM f l r1) as [ys r2]. cbn in *. lia.
Qed.

(** A field of the results that does not depend on the draws is the map
    of that field. *)
Lemma mapM_project {A B C} (f : A -> Rand B) (p : B -> C) (g : A -> C)
    (l : list A) (r : rng) :
  (forall x r', p (fst (f x r')) = g x) ->
  map p (fst (mapM f l r)) = map g l.
Proof.
  intros Hp. revert r. induction l as [|x l IH]; intros r; [done|].
  cbn. unfold bind. pose proof (Hp x r) as Hx. destruct (f x r) as [y r1].
  specialize (IH r1). destruct (mapM f l r1) as [ys r2]. cbn in *.
  by rewrite Hx, IH.
Qed.

(** ** White space and trimming *)

Lemma trimStart_nil (s : str) : trimStart s = [] <-> blank s.
Proof.
  unfold blank. induction s as [|c s IH]; cbn.
  - split; [constructor | done].
  - destruct (is_space c) eqn:Hc.
    + rewrite IH. split; [by constructor | by inversion 1].
    + split; [done | inversion 1; congruence].
Qed.

Lemma trimStart_suffix (s : str) : exists pre, s = pre ++ trimStart s /\ blank pre.
Proof.
  induction s as [|c s (pre & Hs & Hpre)]; cbn.
  - exists []. split; [done | constructor].
  - destruct (is_space c) eqn:Hc.
    + exists (c :: pre). split; [cbn; congruence | by constructor].
    + exists []. split; [done | constructor].
Qed.

Lemma trim_nil (s : str) : trim s = [] <-> blank s.
Proof.
  unfold trim. split.
  - intros H. apply (f_equal (@rev ascii)) in H. rewrite rev_involutive in H.
    cbn in H. apply trimStart_nil in H.
    destruct (trimStart_suffix s) as (pre & Hs & Hpre).
    rewrite Hs. apply Forall_app. split; [done|].
    apply List.Forall_rev in H. by rewrite rev_involutive in H.
  - intros H. apply trimStart_nil in H. by rewrite H.
Qed.

Lemma length_zero_iff {A} (l : list A) : (length l =? 0)%nat = true <-> l = [].
Proof. destruct l; cbn; split; congruence. Qed.

Lemma Forall_push (P : ascii -> Prop) (c : ascii) (l : list str) :
  P c -> Forall (Forall P) l -> Forall (Forall P) (push c l).
Proof.
  intros Hc Hl. destruct l as [|p ps]; cbn.
  - by repeat constructor.
  - inversion Hl; subst. by repeat constructor.
Qed.

(** ** The pieces of a split on a character class *)

Section Fields.
Variable sep : ascii -> bool.

Lemma fields_not_nil (b : bool) (s : str) :
  (0 < length (fields sep b s))%nat.
Proof.
  revert b. induction s as [|c s IH]; intros b; cbn; [lia|].
  destruct (sep c).
  - destruct b; [apply IH | cbn; lia].
  - specialize (IH false). destruct (fields sep false s); cbn in *; lia.
Qed.

(** The pieces of a split hold no separator. *)
Lemma fields_no_separator (b : bool) (s : str) :
  Forall (Forall (fun c => sep c = false)) (fields sep b s).
Proof.
  revert b. induction s as [|c s IH]; intros b; cbn.
  - by repeat constructor.
  - destruct (sep c) eqn:Hc.
    + destruct b; [apply IH | constructor; [constructor | apply IH]].
    + by apply Forall_push.
Qed.


End Fields.

(** ** Validation at the route *)

Lemma api_analyze_accepts (text : str) (r : rng) :
  fst (api_analyze text r) = Ok (fst (analyzeSEO text r)) \/
  exists e, fst (api_analyze text r) = BadRequest e.
Proof.
  unfold api_analyze. repeat case_match; cbn; eauto.
  unfold bind. destruct (analyzeSEO text r). cbn. by left.
Qed.

Lemma api_analyze_rejects (text : str) (r : rng) :
  (exists e, fst (api_analyze text r) = BadRequest e) <->
  (text = [] \/ blank text \/ (50000 < Z.of_nat (length text))%Z).
Proof.
  assert (Hblank : (length (trim text) =? 0)%nat = true <-> blank text)
    by (rewrite length_zero_iff; apply trim_nil).
  unfold api_analyze.
  destruct (length text =? 0)%nat eqn:H0; cbn [orb].
  { apply length_zero_iff in H0. cbn. split; eauto. }
  destruct (length (trim text) =? 0)%nat eqn:H1.
  { cbn. split; [intros _; right; left; by apply Hblank | eauto]. }
  destruct (50000 <? Z.of_nat (length text))%Z eqn:H2.
  { cbn. split; [intros _; right; right; lia | eauto]. }
  unfold bind. destruct (analyzeSEO text r) as [a r']. cbn.
  split; [by intros [e He] | intros [-> | [Hb | Hl]]].
  - done.
  - apply Hblank in Hb. congruence.
  - lia.
Qed.

(** C8.  The route answers with the validation error exactly when the text
    is empty, is white space only, or has more than 50,000 characters; in
    every other case it answers with the analysis of the text. *)
Theorem api_analyze_validation (text : str) (r : rng) :
  ((exists e, fst (api_analyze text r) = BadRequest e) <->
   (text = [] \/ blank text \/ (50000 < Z.of_nat (length text))%Z)) /\
  ((forall e, fst (api_analyze text r) <> BadRequest e) <->
   fst (api_analyze text r) = Ok (fst (analyzeSEO text r))).
Proof.
  split; [apply api_analyze_rejects|].
  destruct (api_analyze_accepts text r) as [H | [e H]]; rewrite H.
  - split; [done | intros _ e; discriminate].
  - split; [intros Hne; by destruct (Hne e) | discriminate].
Qed.

(** ** What [analyzeSEO] returns, field by field *)

Lemma analyzeSEO_metrics (text : str) (r : rng) :
  metrics (fst (analyzeSEO text r)) =
  {| wordCount := length (tokenize_words text);
     sentenceCount := length (tokenize_sentences text);
     paragraphCount := length (tokenize_paragraphs text);
     readabilityScore := Math_round (raw_readability text);
     avgWordsPerSentence :=
       (inject_Z (Math_round
          (average (length (tokenize_words text))
                   (length (tokenize_sentences text)) * 10)) / 10)%Q;
     avgSentencesPerParagraph :=
       (inject_Z (Math_round
          (average (length (tokenize_sentences text))
                   (length (tokenize_paragraphs text)) * 10)) / 10)%Q |}.
Proof.
  unfold analyzeSEO, bind.
  destruct (mapM _ _ r) as [top r1]. by destruct (mapM _ _ r1) as [sug r2].
Qed.

Lemma analyzeSEO_suggestions (text : str) (r : rng) :
  suggestions (fst (analyzeSEO text r)) =
  [readability_suggestion (raw_readability text);
   length_suggestion (length (tokenize_words text));
   keywords_suggestion (length (extracted_entries text))].
Proof.
  unfold analyzeSEO, bind.
  pose proof (mapM_length (top_keyword (length (tokenize_words text)))
                (extracted_entries text) r) as Hlen.
  unfold extracted_entries in *.
  destruct (mapM _ _ r) as [top r1]. destruct (mapM _ _ r1) as [sug r2].
  cbn in *. by rewrite Hlen.
Qed.

Lemma analyzeSEO_keywords (text : str) (r : rng) :
  keywords (fst (analyzeSEO text r)) =
  fst (mapM (top_keyword (length (tokenize_words text)))
            (extracted_entries text) r)
  ++ take 8 (fst (mapM suggested_keyword vocabulary
                    (snd (mapM (top_keyword (length (tokenize_words text)))
                               (extracted_entries text) r)))).
Proof.
  unfold analyzeSEO, bind, extracted_entries.
  destruct (mapM _ _ r) as [top r1]. cbn [snd fst].
  by destruct (mapM _ _ r1) as [sug r2].
Qed.

(** ** The readability score *)

Lemma num_nonneg (n : nat) : (0 <= num n)%Q.
Proof. unfold num, Qle. cbn. lia. Qed.

Lemma num_pos (n : nat) : (0 < n)%nat -> (0 < num n)%Q.
Proof. unfold num, Qlt. cbn. lia. Qed.

Lemma average_nonneg (n d : nat) : (0 <= average n d)%Q.
Proof.
  unfold average. destruct (0 <? d)%nat eqn:Hd; [|lra].
  apply Nat.ltb_lt in Hd. apply Qle_shift_div_l; [by apply num_pos|].
  pose proof (num_nonneg n). lra.
Qed.

Lemma readability_of_bounds (a : Q) :
  (0 <= readability_of a <= 100)%Q.
Proof.
  unfold readability_of. split; [apply Q.le_max_l|].
  apply Q.max_lub; [lra | apply Q.le_min_l].
Qed.

(** With the syllable estimate fixed at 1.5 the clamp at 100 does nothing:
    the score is [79.935 - 1.015 * a] cut off at 0. *)
Lemma readability_of_unclamped (a : Q) :
  (0 <= a)%Q ->
  (readability_of a == Qmax 0 (79.935 - 1.015 * a))%Q /\
  (206.835 - 1.015 * a - 84.6 * 1.5 <= 79.935)%Q /\
  (readability_of a <= 79.935)%Q.
Proof.
  intros Ha. unfold readability_of.
  assert (H : (206.835 - 1.015 * a - 84.6 * 1.5 == 79.935 - 1.015 * a)%Q) by lra.
  assert (H' : (79.935 - 1.015 * a <= 100)%Q) by lra.
  rewrite H, (Q.min_r _ _ H'). repeat split; [lra|].
  apply Q.max_lub; lra.
Qed.

Lemma Math_round_mono (x y : Q) : (x <= y)%Q -> (Math_round x <= Math_round y)%Z.
Proof. intros H. apply Qfloor_resp_le. lra. Qed.

(** C6.  The readability score in the metrics lies between 0 and 100, for
    every text. *)
Theorem readabilityScore_range (text : str) (r : rng) :
  (0 <= readabilityScore (metrics (fst (analyzeSEO text r))) <= 100)%Z.
Proof.
  rewrite analyzeSEO_metrics. cbn [readabilityScore].
  destruct (readability_of_bounds
              (average (length (tokenize_words text))
                       (length (tokenize_sentences text)))) as [Hlo Hhi].
  fold (raw_readability text) in Hlo, Hhi. split.
  - change 0%Z with (Math_round 0). by apply Math_round_mono.
  - change 100%Z with (Math_round 100). by apply Math_round_mono.
Qed.

(** C9.  Before the clamp the score is [206.835 - 1.015 * a - 84.6 * 1.5]
    with [a] the average sentence length, which is [79.935 - 1.015 * a], at
    most 79.935; the clamp at 100 is never reached and the rounded score in
    the metrics is at most 80. *)
Theorem readabilityScore_at_most_80 (text : str) (r : rng) :
  let a := average (length (tokenize_words text))
                   (length (tokenize_sentences text)) in
  (206.835 - 1.015 * a - 84.6 * 1.5 == 79.935 - 1.015 * a)%Q /\
  (79.935 - 1.015 * a <= 79.935)%Q /\
  (raw_readability text == Qmax 0 (79.935 - 1.015 * a))%Q /\
  (readabilityScore (metrics (fst (analyzeSEO text r))) <= 80)%Z.
Proof.
  intros a. pose proof (average_nonneg (length (tokenize_words text))
                          (length (tokenize_sentences text))) as Ha.
  fold a in Ha. destruct (readability_of_unclamped a Ha) as (Heq & _ & Hle).
  repeat split; [lra | lra | done |].
  rewrite analyzeSEO_metrics. cbn [readabilityScore].
  change 80%Z with (Math_round 79.935). by apply Math_round_mono.
Qed.

(** The score of a single word without punctuation, and of a text that is
    punctuation only: both are 79 or 80. *)
Example readabilityScore_single_word :
  readabilityScore (metrics (fst (analyzeSEO (lit "hello") (constant_source 0))))
  = 79%Z.
Proof. vm_compute. reflexivity. Qed.

Example readabilityScore_no_sentence :
  readabilityScore (metrics (fst (analyzeSEO (lit "...") (constant_source 0))))
  = 80%Z.
Proof. vm_compute. reflexivity. Qed.

(** ** Suggestions *)

(** C5.  The suggestions are exactly three, of types readability, length
    and keywords in this order.  The first has priority high when the
    score is below 30, medium from 30 to below 60, low from 60 on; the
    second medium when there are fewer than 300 or more than 2000 words,
    low otherwise; the third high when fewer than 5 keywords were
    extracted, low otherwise.  The score is the clamped score before it is
    rounded for the metrics. *)
Theorem suggestions_three_rules (text : str) (r : rng) :
  let a := fst (analyzeSEO text r) in
  let score := raw_readability text in
  let words := wordCount (metrics a) in
  let extracted := length (extracted_entries text) in
  exists s1 s2 s3,
    suggestions a = [s1; s2; s3] /\
    type s1 = Readability /\ type s2 = Length /\ type s3 = Keywords /\
    ((score < 30)%Q -> priority s1 = High) /\
    ((30 <= score)%Q /\ (score < 60)%Q -> priority s1 = Medium) /\
    ((60 <= score)%Q -> priority s1 = Low) /\
    ((words < 300)%nat \/ (2000 < words)%nat -> priority s2 = Medium) /\
    ((300 <= words)%nat /\ (words <= 2000)%nat -> priority s2 = Low) /\
    ((extracted < 5)%nat -> priority s3 = High) /\
    ((5 <= extracted)%nat -> priority s3 = Low).
Proof.
  intros a score words extracted. subst a words.
  rewrite analyzeSEO_suggestions, analyzeSEO_metrics. cbn [wordCount].
  fold score extracted.
  eexists _, _, _. split; [reflexivity|]. cbn [type priority readability_suggestion
    length_suggestion keywords_suggestion].
  repeat split.
  - intros H. destruct (Qlt_le_dec score 30); [done | lra].
  - intros [H1 H2]. destruct (Qlt_le_dec score 30); [lra|].
    destruct (Qlt_le_dec score 60); [done | lra].
  - intros H. destruct (Qlt_le_dec score 30); [lra|].
    destruct (Qlt_le_dec score 60); [lra | done].
  - intros H.
    destruct (length (tokenize_words text) <? 300)%nat eqn:H1; [done|].
    destruct (2000 <? length (tokenize_words text))%nat eqn:H2; [done|].
    apply Nat.ltb_ge in H1, H2. lia.
  - intros [H1 H2]. apply Nat.ltb_ge in H1, H2. by rewrite H1, H2.
  - intros H. apply Nat.ltb_lt in H. by rewrite H.
  - intros H. apply Nat.ltb_ge in H. by rewrite H.
Qed.

(** The thresholds apply to the score before it is rounded: twenty words
    in one sentence score 59.635, which the metrics show as 60, and the
    priority is medium. *)
Example rounded_60_is_medium :
  let a := fst (analyzeSEO
             (lit "aa bb cc dd ee ff gg hh ii jj kk ll mm nn oo pp qq rr ss tt")
             (constant_source 0)) in
  readabilityScore (metrics a) = 60%Z /\
  map priority (take 1 (suggestions a)) = [Medium].
Proof. vm_compute. split; reflexivity. Qed.

(** ** Words *)

Lemma nonempty_count_push_push (c d : ascii) (l : list str) :
  nonempty_count (push c (push d l)) = nonempty_count (push d l).
Proof. by destruct l. Qed.

(** Splitting on white space and dropping the empty pieces leaves one
    piece for every run of other characters. *)
Lemma fields_runs (s : str) :
  (forall b, nonempty_count (fields is_space b s) = runs true s) /\
  (forall c, nonempty_count (push c (fields is_space false s)) = S (runs false s)).
Proof.
  induction s as [|d s [IHP IHQ]]; [done|]. split.
  - intros b. cbn. destruct (is_space d).
    + destruct b; [apply IHP|]. unfold nonempty_count. cbn. apply IHP.
    + apply IHQ.
  - intros c. cbn. destruct (is_space d).
    + unfold nonempty_count. cbn. f_equal. apply IHP.
    + rewrite nonempty_count_push_push. apply IHQ.
Qed.

Lemma starts_from_cons (p : bool) (c : ascii) (s : str) (j : nat) :
  starts_from p (c :: s) (S j) = starts_from (is_space c) s j.
Proof. unfold starts_from. cbn. by destruct j. Qed.

Lemma filter_seq_shift (f : nat -> bool) (n : nat) :
  length (List.filter f (seq 1 n)) =
  length (List.filter (fun j => f (S j)) (seq 0 n)).
Proof.
  rewrite <- seq_shift. generalize (seq 0 n). intros l.
  induction l as [|x l IH]; [done|]. cbn. destruct (f (S x)); cbn; lia.
Qed.

(** Counting the positions where a word starts gives the same number. *)
Lemma starts_runs (p : bool) (s : str) :
  length (List.filter (starts_from p s) (seq 0 (length s))) = runs p s.
Proof.
  revert p. induction s as [|c s IH]; intros p; [done|].
  cbn [length seq List.filter]. 
  assert (Htl : length (List.filter (starts_from p (c :: s)) (seq 1 (length s)))
                = runs (is_space c) s).
  { rewrite filter_seq_shift, <- IH. f_equal. apply filter_ext.
    intros j. apply starts_from_cons. }
  unfold starts_from at 1. cbn [lookup list_lookup runs].
  destruct (is_space c); cbn [negb andb].
  - exact Htl.
  - destruct p; cbn [length]; rewrite Htl; done.
Qed.

(** C7.  The word count in the metrics is the number of maximal runs of
    characters of the text that are not white space. *)
Theorem wordCount_counts_tokens (text : str) (r : rng) :
  wordCount (metrics (fst (analyzeSEO text r))) = count_tokens text.
Proof.
  rewrite analyzeSEO_metrics. cbn [wordCount].
  unfold count_tokens. rewrite starts_runs.
  apply (proj1 (fields_runs text) false).
Qed.

Example wordCount_scenario :
  wordCount (metrics (fst (analyzeSEO
    (lit "The quick brown fox jumps. The lazy dog sleeps.") (constant_source 0))))
  = 9%nat.
Proof. vm_compute. reflexivity. Qed.

(** ** String tests *)

Lemma startsWith_spec (s k : str) :
  startsWith s k = true <-> exists post, s = k ++ post.
Proof.
  revert s. induction k as [|a k IH]; intros s; cbn.
  - split; [intros _; by exists s | done].
  - destruct s as [|b s].
    + split; [done | by intros [post H]].
    + rewrite andb_true_iff, Ascii.eqb_eq, IH. split.
      * intros [-> [post ->]]. eauto.
      * intros [post H]. injection H as -> ->. eauto.
Qed.

Lemma includes_spec (s k : str) : includes s k = true <-> substring k s.
Proof.
  unfold substring. induction s as [|c s IH]; cbn [includes].
  - rewrite orb_false_r, startsWith_spec. split.
    + intros [post H]. by exists [], post.
    + intros (pre & post & H). destruct pre; [by exists post|done].
  - rewrite orb_true_iff, startsWith_spec, IH. split.
    + intros [[post H] | (pre & post & H)].
      * by exists [], post.
      * exists (c :: pre), post. by rewrite H.
    + intros (pre & post & H). destruct pre as [|d pre].
      * left. by exists post.
      * right. injection H as -> H. eauto.
Qed.

Lemma str_eqb_eq (a b : str) : str_eqb a b = true <-> a = b.
Proof.
  unfold str_eqb. rewrite andb_true_iff, Nat.eqb_eq, startsWith_spec. split.
  - intros [Hlen [post ->]]. rewrite length_app in Hlen.
    destruct post; [by rewrite app_nil_r | cbn in Hlen; lia].
  - intros ->. split; [done | exists []; by rewrite app_nil_r].
Qed.

Lemma str_eqb_refl (a : str) : str_eqb a a = true.
Proof. by apply str_eqb_eq. Qed.

(** ** The keyword that is already there *)

Lemma api_insert_keyword_present (text keyword : str) (r : rng) :
  text <> [] -> keyword <> [] ->
  already_present text keyword = true ->
  fst (api_insert_keyword text keyword r)
  = Ok {| updatedText := text; inserted := false |}.
Proof.
  intros Ht Hk Hp. unfold api_insert_keyword.
  destruct text as [|c text]; [done|]. destruct keyword as [|d keyword]; [done|].
  cbn [length Nat.eqb orb]. unfold bind, insertKeywordIntelligently.
  rewrite Hp. cbn. by rewrite str_eqb_refl.
Qed.

(** A word of the text is one of the pieces of its split on white
    space. *)
Lemma push_app (c : ascii) (l1 l2 : list str) :
  l1 <> [] -> push c (l1 ++ l2) = push c l1 ++ l2.
Proof. by destruct l1. Qed.

Lemma fields_after_space (p : str) (c : ascii) (rest : str) (b : bool) :
  is_space c = true ->
  exists init,
    fields is_space b (p ++ c :: rest) = init ++ fields is_space true rest /\
    (b = false -> init <> []).
Proof.
  intros Hc. revert b. induction p as [|d p IH]; intros b; cbn.
  - rewrite Hc. destruct b; [by exists [] | by exists [[]]].
  - destruct (is_space d).
    + destruct (IH true) as (init & -> & _).
      destruct b; [by exists init | by exists ([] :: init)].
    + destruct (IH false) as (init & -> & Hne).
      exists (push d init). rewrite push_app by auto.
      split; [done|]. intros _. destruct init; [by destruct Hne | done].
Qed.

Lemma fields_word_first (word post : str) :
  Forall (fun c => is_space c = false) word ->
  (post = [] \/ exists c p, post = c :: p /\ is_space c = true) ->
  exists rest, fields is_space false (word ++ post) = word :: rest.
Proof.
  intros Hw Hpost. induction Hw as [|d word Hd _ IH]; cbn.
  - destruct Hpost as [-> | (c & p & -> & Hc)]; cbn; [eauto|].
    rewrite Hc. eauto.
  - rewrite Hd. destruct IH as (rest & ->). cbn. eauto.
Qed.

Lemma fields_word_next (b : bool) (word post : str) :
  word <> [] ->
  Forall (fun c => is_space c = false) word ->
  (post = [] \/ exists c p, post = c :: p /\ is_space c = true) ->
  exists rest, fields is_space b (word ++ post) = word :: rest.
Proof.
  intros Hne Hw Hpost. destruct word as [|d word]; [done|].
  inversion Hw as [|? ? Hd Hw']; subst. cbn. rewrite Hd.
  destruct (fields_word_first word post Hw' Hpost) as (rest & ->). cbn. eauto.
Qed.

Lemma word_of_split (text word : str) :
  word <> [] -> word_of text word -> In word (split_on is_space text).
Proof.
  intros Hne (pre & post & -> & Hw & Hpre & Hpost). unfold split_on.
  destruct Hpre as [-> | (p & c & -> & Hc)].
  - cbn [app].
    destruct (fields_word_next false word post Hne Hw Hpost) as (rest & ->).
    by left.
  - rewrite <- app_assoc. cbn [app].
    destruct (fields_after_space p c (word ++ post) false Hc) as (init & -> & _).
    destruct (fields_word_next true word post Hne Hw Hpost) as (rest & ->).
    apply in_or_app. right. by left.
Qed.

(** C2.  When the keyword in lower case occurs inside one of the words of
    the text in lower case, a word being an occurrence without white
    space that white space or the ends of the text delimit, the route
    returns the text as it is, with [inserted] false, whatever the source
    draws. *)
Theorem present_keyword_left_alone (text keyword : str) (r : rng) :
  keyword <> [] ->
  (exists word,
      word_of (toLowerCase text) word /\
      substring (toLowerCase keyword) word) ->
  fst (api_insert_keyword text keyword r)
  = Ok {| updatedText := text; inserted := false |}.
Proof.
  intros Hk (word & Hword & Hsub).
  assert (Hne : word <> []).
  { intros ->. destruct Hsub as (pre & post & H).
    destruct keyword; [done|]. by destruct pre. }
  assert (Ht : text <> []).
  { intros ->. destruct Hword as (pre & post & H & _).
    destruct pre; [by destruct word | done]. }
  apply api_insert_keyword_present; [done | done |].
  unfold already_present. apply existsb_exists. exists word.
  split; [by apply word_of_split | by apply includes_spec].
Qed.

Lemma present_keyword_left_alone_witness :
  fst (api_insert_keyword (lit "Cats are great pets.") (lit "cats")
         (constant_source 7))
  = Ok {| updatedText := lit "Cats are great pets."; inserted := false |}.
Proof.
  apply (present_keyword_left_alone (lit "Cats are great pets.") (lit "cats")).
  - discriminate.
  - exists (lit "cats"). split.
    + exists [], (lit " are great pets."). split; [reflexivity|].
      split; [by repeat constructor|]. split; [by left|].
      right. by exists " "%char, (lit "are great pets.").
    + by exists [], [].
Defined.

(** The check looks inside words: [art] is found in [start]. *)
Example present_inside_a_longer_word :
  fst (api_insert_keyword (lit "We start early.") (lit "Art") (constant_source 0))
  = Ok {| updatedText := lit "We start early."; inserted := false |}.
Proof. vm_compute. reflexivity. Qed.

(** ** The loop that selects a sentence *)

Lemma num_lt (i n : nat) : (i < n)%nat -> (num i < num n)%Q.
Proof. intros H. unfold num. rewrite <- Zlt_Qlt. lia. Qed.

(** Every piece in range has a positive score, so the first candidate
    always replaces the initial best score 0. *)
Lemma score_pos (sentences : list str) (i : nat) (sentence : str) :
  (i < length sentences)%nat -> (0 < score sentences i sentence)%Q.
Proof.
  intros Hi. unfold score.
  set (n := length (split_on is_space (toLowerCase sentence))).
  assert (Hn : (0 < num n)%Q) by (apply num_pos, fields_not_nil).
  assert (HL : (0 < num (length sentences))%Q) by (apply num_pos; lia).
  pose proof (num_lt _ _ Hi) as HI. pose proof (num_nonneg i) as HI0.
  set (L := num (length sentences)) in *. set (I := num i) in *.
  assert (Hlen : (0 < Qmin (num n / 20) 1)%Q).
  { apply Q.min_glb_lt; [|lra]. apply Qlt_shift_div_l; lra. }
  assert (Hpos : (Qabs (I - L / 2) / L <= 1 # 2)%Q).
  { apply Qle_shift_div_r; [done|]. apply Qabs_Qle_condition.
    assert (L / 2 == (1 # 2) * L)%Q by (field; lra). lra. }
  set (x := Qmin (num n / 20) 1) in *. set (y := (Qabs (I - L / 2) / L)%Q) in *.
  lra.
Qed.

Lemma visit_keeps (sentences : list str) (a : nat) (best : nat * Q) :
  best_so_far sentences a best ->
  best_so_far sentences (S a) (visit sentences best (2 * a)).
Proof.
  intros [Hmax Hbest]. unfold visit.
  destruct (sentences !! (2 * a)%nat) as [s|] eqn:Hs; cycle 1.
  { split.
    - intros k s Hk Hl Hsk. apply (Hmax k s); [|done..].
      destruct (decide (k = a)) as [->|]; [congruence | lia].
    - destruct Hbest as [(Hb & Hsc & Hnone) | (kb & sb & Hb & Hkb & Hrest)].
      + left. repeat split; [done..|]. intros k s Hk Hl.
        destruct (decide (k = a)) as [->|]; [congruence|].
        apply (Hnone k s); [lia | done].
      + right. exists kb, sb. split; [done|]. split; [lia | done]. }
  destruct (skipped s) eqn:Hskip.
  { split.
    - intros k s' Hk Hl Hsk.
      destruct (decide (k = a)) as [->|]; [congruence|].
      apply (Hmax k s'); [lia | done..].
    - destruct Hbest as [(Hb & Hsc & Hnone) | (kb & sb & Hb & Hkb & Hrest)].
      + left. repeat split; [done..|]. intros k s' Hk Hl.
        destruct (decide (k = a)) as [->|]; [congruence|].
        apply (Hnone k s'); [lia | done].
      + right. exists kb, sb. split; [done|]. split; [lia | done]. }
  destruct (Qlt_le_dec (snd best) (score sentences (2 * a) s)) as [Hlt | Hle].
  - split; cbn [fst snd].
    + intros k s' Hk Hl Hsk.
      destruct (decide (k = a)) as [->|].
      * replace s' with s by congruence. lra.
      * assert (score sentences (2 * k) s' <= snd best)%Q
          by (apply Hmax; [lia | done..]). lra.
    + right. exists a, s. repeat split; [lia | done..|].
      intros k s' Hk Hl Hsk.
      assert (score sentences (2 * k) s' <= snd best)%Q
        by (apply Hmax; [lia | done..]). lra.
  - split.
    + intros k s' Hk Hl Hsk.
      destruct (decide (k = a)) as [->|].
      * by replace s' with s by congruence.
      * apply Hmax; [lia | done..].
    + destruct Hbest as [(Hb & Hsc & Hnone) | (kb & sb & Hb & Hkb & Hrest)].
      * exfalso. rewrite Hsc in Hle.
        apply lookup_lt_Some in Hs as Hlt.
        pose proof (score_pos sentences (2 * a) s Hlt). lra.
      * right. exists kb, sb. split; [done|]. split; [lia | done].
Qed.

Lemma fold_visit_keeps (sentences : list str) (n a : nat) (best : nat * Q) :
  best_so_far sentences a best ->
  best_so_far sentences (a + n)
    (fold_left (visit sentences) (map (fun k => 2 * k)%nat (seq a n)) best).
Proof.
  revert a best. induction n as [|n IH]; intros a best Hinv; cbn.
  - by rewrite Nat.add_0_r.
  - replace (a + S n)%nat with (S a + n)%nat by lia.
    apply IH. rewrite Nat.add_0_r. replace (a + a)%nat with (2 * a)%nat by lia.
    by apply visit_keeps.
Qed.

Lemma find_best_so_far (sentences : list str) :
  best_so_far sentences (Nat.div2 (length sentences + 1)) (find_best sentences).
Proof.
  apply (fold_visit_keeps sentences _ 0 (0%nat, 0%Q)).
  split; [intros; lia|]. left. repeat split. intros; lia.
Qed.

Lemma find_best_even (sentences : list str) : Nat.Even (fst (find_best sentences)).
Proof.
  destruct (find_best_so_far sentences)
    as [_ [(Hb & _) | (kb & s & Hb & _)]]; rewrite Hb.
  - by exists 0%nat.
  - by exists kb.
Qed.

Lemma even_index_in_loop (sentences : list str) (k : nat) (s : str) :
  sentences !! (2 * k)%nat = Some s ->
  (k < Nat.div2 (length sentences + 1))%nat.
Proof.
  intros H. apply lookup_lt_Some in H.
  pose proof (Nat.div2_odd (length sentences + 1)) as Hd.
  destruct (Nat.odd (length sentences + 1)); cbn in Hd; lia.
Qed.

(** The best position is a candidate as soon as there is one, and then it
    is the first candidate of the largest score. *)
Lemma find_best_first_maximum (sentences : list str) (i : nat) (sentence : str) :
  candidate sentences i sentence ->
  exists chosen,
    candidate sentences (fst (find_best sentences)) chosen /\
    (score sentences i sentence
     <= score sentences (fst (find_best sentences)) chosen)%Q /\
    ((i < fst (find_best sentences))%nat ->
     (score sentences i sentence
      < score sentences (fst (find_best sentences)) chosen)%Q).
Proof.
  intros (Hi & [k ->] & Hskip).
  pose proof (even_index_in_loop _ _ _ Hi) as Hk.
  destruct (find_best_so_far sentences)
    as [Hmax [(Hb & Hsc & Hnone) | (kb & s & Hb & Hkb & Hs & Hsk & Hsc & Hfirst)]].
  - rewrite (Hnone k sentence Hk Hi) in Hskip. done.
  - rewrite Hb. exists s. split; [|split].
    + split; [done|]. split; [by exists kb | done].
    + rewrite <- Hsc. by apply Hmax.
    + intros Hlt. apply Hfirst; [lia | done..].
Qed.

(** ** Draws *)

Lemma Math_random_range (r : rng) : (0 <= fst (Math_random r) < 1)%Q.
Proof.
  unfold Math_random. cbn [fst].
  assert (Hm : (r 0%nat mod 2 ^ 53 < 2 ^ 53)%N) by (by apply N.mod_lt).
  set (m := (r 0%nat mod 2 ^ 53)%N) in *.
  assert (H0 : (0 <= inject_Z (Z.of_N m))%Q)
    by (change 0%Q with (inject_Z 0); rewrite <- Zle_Qle; lia).
  assert (H1 : (inject_Z (Z.of_N m) < inject_Z (2 ^ 53))%Q)
    by (rewrite <- Zlt_Qlt; lia).
  assert (H2 : (0 < inject_Z (2 ^ 53))%Q) by done.
  split.
  - apply Qle_shift_div_l; [done | lra].
  - apply Qlt_shift_div_r; [done | lra].
Qed.

Lemma random_below_range (k : Z) (r : rng) :
  (0 < k)%Z -> (0 <= fst (random_below k r) < k)%Z.
Proof.
  intros Hk. unfold random_below, bind.
  pose proof (Math_random_range r) as [Hlo Hhi].
  destruct (Math_random r) as [u r']. cbn [fst ret] in *.
  assert (HK : (0 < inject_Z k)%Q)
    by (change 0%Q with (inject_Z 0); by rewrite <- Zlt_Qlt).
  split.
  - change 0%Z with (Qfloor 0). apply Qfloor_resp_le.
    apply Qmult_le_0_compat; lra.
  - rewrite Zlt_Qlt. eapply Qle_lt_trans; [apply Qfloor_le|].
    assert (u * inject_Z k < 1 * inject_Z k)%Q
      by (by apply Qmult_lt_compat_r). lra.
Qed.

(** ** Taking a text apart and putting it together *)

Lemma concat_push (c : ascii) (l : list str) : concat (push c l) = c :: concat l.
Proof. by destruct l. Qed.

(** The pieces of the capturing split, joined, are the text. *)
Lemma concat_pieces (st : scan) (s : str) : concat (pieces st s) = s.
Proof.
  revert st. induction s as [|c s IH]; intros st.
  - by destruct st.
  - cbn. destruct st; repeat case_match; cbn; rewrite ?concat_push, ?IH; done.
Qed.

Lemma concat_split_sentences (text : str) : concat (split_sentences text) = text.
Proof. apply concat_pieces. Qed.

(** ** The rewritten sentence *)

Lemma rewrite_sentence_shape (sentence keyword : str) (r : rng) :
  exists insertIndex connector,
    In connector connectors /\
    fst (rewrite_sentence sentence keyword r) =
      join (lit " ") (take insertIndex (split_on is_space sentence))
      ++ lit " " ++ connector ++ lit " " ++ keyword ++ lit " "
      ++ join (lit " ") (drop insertIndex (split_on is_space sentence)).
Proof.
  unfold rewrite_sentence, bind.
  destruct (random_below _ r) as [jitter r1].
  pose proof (random_below_range (Z.of_nat (length connectors)) r1) as Hc.
  destruct (random_below _ r1) as [choice r2]. cbn [fst ret] in *.
  eexists _, _. split; [|reflexivity].
  apply nth_In. cbn in Hc |- *. lia.
Qed.

(** ** The cases of [insertKeywordIntelligently] *)

Lemma insertKeywordIntelligently_cases (text keyword : str) (r : rng) :
  let sentences := split_sentences text in
  let best := fst (find_best sentences) in
  (fst (insertKeywordIntelligently text keyword r) = text /\
   (already_present text keyword = true \/
    sentences !! best = None \/ sentences !! best = Some [])) \/
  (already_present text keyword = false /\
   exists sentence,
     sentences !! best = Some sentence /\ sentence <> [] /\
     fst (insertKeywordIntelligently text keyword r) =
       concat (<[best := fst (rewrite_sentence sentence keyword r)]> sentences)).
Proof.
  intros sentences best. unfold insertKeywordIntelligently.
  fold sentences. fold best.
  destruct (already_present text keyword); [left; split; eauto|].
  destruct (sentences !! best) as [sentence|] eqn:Hs; cycle 1.
  { left. split; [apply concat_split_sentences | eauto]. }
  destruct sentence as [|c sentence].
  { left. split; [apply concat_split_sentences | eauto]. }
  right. split; [done|]. exists (c :: sentence).
  split; [done|]. split; [done|].
  cbn [length Nat.ltb Nat.leb]. unfold bind.
  by destruct (rewrite_sentence (c :: sentence) keyword r).
Qed.

Lemma api_insert_keyword_ok (text keyword : str) (r : rng)
    (result : InsertionResult) :
  fst (api_insert_keyword text keyword r) = Ok result ->
  text <> [] /\ keyword <> [] /\
  updatedText result = fst (insertKeywordIntelligently text keyword r) /\
  inserted result = negb (str_eqb (updatedText result) text).
Proof.
  unfold api_insert_keyword.
  destruct text as [|c text]; [done|]. destruct keyword as [|d keyword]; [done|].
  cbn [length Nat.eqb orb]. unfold bind.
  destruct (insertKeywordIntelligently _ _ r) as [updated r'].
  cbn. intros [= <-]. done.
Qed.

(** C3.  When the route reports an insertion, the updated text is the
    pieces of the text joined in their order with one sentence piece
    replaced: every piece before it and every piece after it, separators
    included, is in the updated text as it was.  The replacement is the
    words of the sentence with a connector and the keyword put between
    two of them. *)
Theorem insertion_replaces_one_sentence (text keyword : str) (r : rng)
    (updated : str) :
  fst (api_insert_keyword text keyword r)
  = Ok {| updatedText := updated; inserted := true |} ->
  exists before sentence after rewritten,
    split_sentences text = before ++ sentence :: after /\
    Nat.Even (length before) /\
    text = concat before ++ sentence ++ concat after /\
    updated = concat before ++ rewritten ++ concat after /\
    exists insertIndex connector,
      In connector connectors /\
      rewritten =
        join (lit " ") (take insertIndex (split_on is_space sentence))
        ++ lit " " ++ connector ++ lit " " ++ keyword ++ lit " "
        ++ join (lit " ") (drop insertIndex (split_on is_space sentence)).
Proof.
  intros H. apply api_insert_keyword_ok in H as (_ & _ & Hup & Hins).
  cbn [updatedText inserted] in *.
  destruct (insertKeywordIntelligently_cases text keyword r)
    as [[Hsame _] | (_ & sentence & Hs & _ & Hnew)].
  { rewrite Hup, Hsame, str_eqb_refl in Hins. done. }
  set (sentences := split_sentences text) in *.
  set (best := fst (find_best sentences)) in *.
  pose proof (lookup_lt_Some _ _ _ Hs) as Hlt.
  exists (take best sentences), sentence, (drop (S best) sentences),
    (fst (rewrite_sentence sentence keyword r)).
  split; [by rewrite take_drop_middle|].
  split; [rewrite length_take_le by lia; apply find_best_even|].
  split.
  { rewrite <- (concat_split_sentences text). fold sentences.
    rewrite <- (take_drop_middle sentences best sentence Hs) at 1.
    by rewrite concat_app. }
  split.
  { rewrite Hup, Hnew, insert_take_drop by done. by rewrite concat_app. }
  apply rewrite_sentence_shape.
Qed.

Lemma insertion_replaces_one_sentence_witness :
  exists before sentence after rewritten,
    split_sentences (lit "Dogs bark loudly at night. Cats sleep.")
      = before ++ sentence :: after /\
    lit "Dogs bark loudly at night.  including nutrition Cats sleep."
      = concat before ++ rewritten ++ concat after.
Proof.
  destruct (insertion_replaces_one_sentence
              (lit "Dogs bark loudly at night. Cats sleep.") (lit "nutrition")
              (constant_source 0)
              (lit "Dogs bark loudly at night.  including nutrition Cats sleep."))
    as (before & sentence & after & rewritten & H1 & _ & _ & H2 & _).
  - vm_compute. reflexivity.
  - by exists before, sentence, after, rewritten.
Defined.

(** ** A keyword with white space in it *)

Lemma lower_char_space (c : ascii) : is_space (lower_char c) = is_space c.
Proof. destruct c as [[] [] [] [] [] [] [] []]; reflexivity. Qed.

Lemma toLowerCase_has_space (s : str) :
  existsb is_space (toLowerCase s) = existsb is_space s.
Proof.
  unfold toLowerCase. induction s as [|c s IH]; [done|].
  cbn. by rewrite lower_char_space, IH.
Qed.




(** White space is all an insertion can remove: the other characters of
    the sentence stay, in order, and those of the connector and of the
    keyword come in. *)
Lemma letters_app (a b : str) : letters (a ++ b) = letters a ++ letters b.
Proof. apply List.filter_app. Qed.

Lemma letters_id (s : str) :
  Forall (fun c => is_space c = false) s -> letters s = s.
Proof.
  induction 1 as [|c s Hc _ IH]; [done|]. unfold letters in *. cbn.
  by rewrite Hc, IH.
Qed.

Lemma concat_fields_space (b : bool) (s : str) :
  concat (fields is_space b s) = letters s.
Proof.
  revert b. induction s as [|c s IH]; intros b; [done|].
  unfold letters in *. cbn. destruct (is_space c); cbn.
  - destruct b; cbn; apply IH.
  - by rewrite concat_push, IH.
Qed.

Lemma letters_join (l : list str) :
  Forall (Forall (fun c => is_space c = false)) l ->
  letters (join (lit " ") l) = concat l.
Proof.
  induction 1 as [|x l Hx Hl IH]; [done|].
  cbn [join]. destruct l as [|y l].
  - cbn. by rewrite app_nil_r, letters_id.
  - rewrite !letters_app, IH, letters_id by done. done.
Qed.

Lemma connectors_have_letters (connector : str) :
  In connector connectors -> (0 < length (letters connector))%nat.
Proof.
  intros H. repeat (destruct H as [<- | H]; [vm_compute; lia|]). destruct H.
Qed.

Lemma rewrite_sentence_letters (sentence keyword : str) (r : rng) :
  (length (letters sentence)
   < length (letters (fst (rewrite_sentence sentence keyword r))))%nat.
Proof.
  destruct (rewrite_sentence_shape sentence keyword r)
    as (i & connector & Hc & ->).
  pose proof (fields_no_separator is_space false sentence) as Hw.
  fold (split_on is_space sentence) in Hw.
  rewrite !letters_app, !letters_join
    by (by apply Forall_take || by apply Forall_drop).
  rewrite !length_app.
  assert (Hlen : (length (concat (take i (split_on is_space sentence)))
                  + length (concat (drop i (split_on is_space sentence)))
                  = length (letters sentence))%nat).
  { rewrite <- length_app, <- concat_app, take_drop.
    unfold split_on. by rewrite concat_fields_space. }
  pose proof (connectors_have_letters connector Hc). lia.
Qed.

Lemma rewrite_sentence_differs (sentence keyword : str) (r : rng) :
  fst (rewrite_sentence sentence keyword r) <> sentence.
Proof.
  intros H. pose proof (rewrite_sentence_letters sentence keyword r) as Hlt.
  rewrite H in Hlt. lia.
Qed.

Lemma insert_concat_differs (l : list str) (i : nat) (x y : str) :
  l !! i = Some x -> y <> x -> concat (<[i := y]> l) <> concat l.
Proof.
  intros Hx Hne H. apply lookup_lt_Some in Hx as Hlt.
  rewrite insert_take_drop in H by done.
  rewrite <- (take_drop_middle l i x Hx) in H at 3.
  rewrite !concat_app in H. cbn [concat] in H.
  apply app_inv_head in H. by apply app_inv_tail in H.
Qed.

(** The route reports an insertion whenever the text is not returned as
    it is. *)
Lemma api_insert_keyword_inserts (text keyword : str) (r : rng) (sentence : str) :
  text <> [] -> keyword <> [] ->
  already_present text keyword = false ->
  split_sentences text !! fst (find_best (split_sentences text)) = Some sentence ->
  sentence <> [] ->
  fst (api_insert_keyword text keyword r) =
    Ok {| updatedText :=
            concat (<[fst (find_best (split_sentences text))
                      := fst (rewrite_sentence sentence keyword r)]>
                      (split_sentences text));
          inserted := true |}.
Proof.
  intros Ht Hk Hnew Hs Hne. unfold api_insert_keyword.
  destruct text as [|c text]; [done|]. destruct keyword as [|d keyword]; [done|].
  cbn [length Nat.eqb orb]. unfold bind.
  destruct (insertKeywordIntelligently_cases (c :: text) (d :: keyword) r)
    as [(_ & [Hp | [Hnone | Hnil]]) | (_ & s & Hs' & _ & Hout)];
    [congruence.. |].
  rewrite Hs in Hs'. injection Hs' as <-.
  destruct (insertKeywordIntelligently _ _ r) as [updated r'].
  cbn [fst ret] in *. subst updated. do 2 f_equal.
  apply negb_true_iff, not_true_is_false. intros Heq.
  apply str_eqb_eq in Heq.
  apply (insert_concat_differs (split_sentences (c :: text)) _ sentence _ Hs
           (rewrite_sentence_differs sentence (d :: keyword) r)).
  by rewrite concat_split_sentences.
Qed.






Lemma find_best_lookup (text : str) :
  starts_with_sentence text ->
  exists sentence,
    split_sentences text !! fst (find_best (split_sentences text))
      = Some sentence /\
    sentence <> [].
Proof.
  intros (first & rest & Hsplit & Hne).
  destruct (find_best_so_far (split_sentences text))
    as [_ [(Hb & _) | (kb & s & Hb & _ & Hs & Hsk & _)]]; rewrite Hb.
  - exists first. by rewrite Hsplit.
  - exists s. split; [done|]. intros ->. done.
Qed.





(** Two calls on a text that has the phrase already leave it there three
    times. *)
Example duplicates_accumulate :
  snd (fst (repeated_calls 2 (lit "We sell digital marketing services today.")
              (lit "digital marketing") (constant_source 0)))
  = lit "We including including digital marketing digital marketing sell digital marketing services today.".
Proof. vm_compute. reflexivity. Qed.

(** ** The keyword list *)

Lemma top_keyword_fields (words : nat) (e : str * value) (r : rng) :
  keyword (fst (top_keyword words e r)) = fst e /\
  frequency (fst (top_keyword words e r)) = snd e /\
  relevance (fst (top_keyword words e r)) = relevance_of (snd e) words.
Proof.
  unfold top_keyword, bind.
  destruct (random_below 10000 r) as [sv r1].
  by destruct (random_below 100 r1) as [d r2].
Qed.

Lemma suggested_keyword_fields (k : str) (r : rng) :
  keyword (fst (suggested_keyword k r)) = k /\
  frequency (fst (suggested_keyword k r)) = VNumber 0.
Proof.
  unfold suggested_keyword, bind.
  destruct (random_below 80 r) as [rel r1].
  destruct (random_below 50000 r1) as [sv r2].
  by destruct (random_below 100 r2) as [d r3].
Qed.

(** The list is the extracted keywords, at most 10, with the words and
    the values of the sorted entries, followed by the first 8 phrases of
    the vocabulary in their order, each with frequency 0: at most 18 in
    all.  This part holds for every text. *)
Lemma keywords_extracted_then_curated (text : str) (r : rng) :
  exists extracted curated,
    keywords (fst (analyzeSEO text r)) = extracted ++ curated /\
    map keyword extracted = map fst (extracted_entries text) /\
    map frequency extracted = map snd (extracted_entries text) /\
    map relevance extracted =
      map (fun e => relevance_of (snd e) (length (tokenize_words text)))
          (extracted_entries text) /\
    (length extracted <= 10)%nat /\
    map keyword curated = take 8 vocabulary /\
    map frequency curated = repeat (VNumber 0) 8 /\
    (length (keywords (fst (analyzeSEO text r))) <= 18)%nat.
Proof.
  rewrite analyzeSEO_keywords.
  set (n := length (tokenize_words text)).
  set (r1 := snd (mapM (top_keyword n) (extracted_entries text) r)).
  exists (fst (mapM (top_keyword n) (extracted_entries text) r)),
    (take 8 (fst (mapM suggested_keyword vocabulary r1))).
  assert (Hlen : (length (extracted_entries text) <= 10)%nat)
    by (unfold extracted_entries; rewrite length_take; lia).
  split; [done|].
  split; [apply mapM_project; intros; apply top_keyword_fields|].
  split; [apply mapM_project; intros; apply top_keyword_fields|].
  split; [apply mapM_project; intros; apply top_keyword_fields|].
  split; [by rewrite mapM_length|].
  rewrite <- !(firstn_map _ 8).
  rewrite (mapM_project suggested_keyword keyword (fun k => k))
    by (intros; apply suggested_keyword_fields).
  rewrite (mapM_project suggested_keyword frequency (fun _ => VNumber 0))
    by (intros; apply suggested_keyword_fields).
  rewrite map_id. split; [done|]. split; [done|].
  rewrite length_app, mapM_length, length_take, mapM_length. cbn. lia.
Qed.

(** *** Counting: every word but one gets a number *)

Lemma own_get_Forall (P : value -> Prop) (o : object) (k : str) (v : value) :
  Forall (fun e => P (snd e)) o -> own_get o k = Some v -> P v.
Proof.
  induction 1 as [|[k' v'] o Hx _ IH]; cbn; [done|].
  destruct (str_eqb k' k); [by intros [= <-] | done].
Qed.

Lemma own_set_Forall (P : value -> Prop) (o : object) (k : str) (v : value) :
  P v -> Forall (fun e => P (snd e)) o ->
  Forall (fun e => P (snd e)) (own_set o k v).
Proof.
  intros Hv. induction 1 as [|[k' v'] o Hx Ho IH]; cbn.
  - by repeat constructor.
  - destruct (str_eqb k' k); by constructor.
Qed.

Lemma count_word_counts (wordFreq : object) (word : str) :
  cleaned word <> lit "constructor" ->
  Forall (fun e => is_count (snd e)) wordFreq ->
  Forall (fun e => is_count (snd e)) (count_word wordFreq word).
Proof.
  intros Hne Ho. unfold count_word. fold (cleaned word).
  set (k := cleaned word) in *. case_match; [|done].
  unfold set. destruct (str_eqb k (lit "__proto__")) eqn:Hproto; [done|].
  apply own_set_Forall; [|done]. unfold get.
  destruct (own_get wordFreq k) as [v|] eqn:Hget.
  - destruct (own_get_Forall _ _ _ _ Ho Hget) as (n & -> & Hn).
    unfold or_else. cbn.
    destruct (n =? 0)%Z eqn:H0; [lia|]. cbn. exists (n + 1)%Z. split; [done | lia].
  - unfold prototype_get. rewrite Hproto.
    destruct (str_eqb k (lit "constructor")) eqn:Hc.
    + by apply str_eqb_eq in Hc.
    + cbn. by exists 1%Z.
Qed.

Lemma fold_count_word_counts (words : list str) (wordFreq : object) :
  Forall (fun word => cleaned word <> lit "constructor") words ->
  Forall (fun e => is_count (snd e)) wordFreq ->
  Forall (fun e => is_count (snd e)) (fold_left count_word words wordFreq).
Proof.
  intros Hw. revert wordFreq.
  induction Hw as [|word words Hword _ IH]; intros o Ho; [done|].
  cbn. apply IH. by apply count_word_counts.
Qed.

(** *** Entries and their order *)

Lemma insert_index_Forall (P : N * (str * value) -> Prop) e l :
  P e -> Forall P l -> Forall P (insert_index e l).
Proof.
  intros He. induction 1 as [|e' l He' Hl IH]; cbn.
  - by repeat constructor.
  - destruct (fst e <? fst e')%N; by repeat constructor.
Qed.

Lemma entries_Forall (P : str * value -> Prop) (o : object) :
  Forall P o -> Forall P (entries o).
Proof.
  intros Ho. unfold entries. apply Forall_app. split.
  - assert (H : Forall (fun ie => P (snd ie)) (indexed o)).
    { unfold indexed. induction Ho as [|e o He _ IH]; cbn; [constructor|].
      destruct (array_index (fst e)); [by constructor | done]. }
    induction H as [|ie l Hie _ IH]; cbn; [constructor|].
    rewrite Forall_map in *. by apply insert_index_Forall.
  - induction Ho as [|e o He _ IH]; cbn; [constructor|].
    destruct (array_index (fst e)); [done | by constructor].
Qed.

Lemma insert_entry_Forall (P : str * value -> Prop) x l :
  P x -> Forall P l -> Forall P (insert_entry x l).
Proof.
  intros Hx. induction 1 as [|y l Hy Hl IH]; cbn.
  - by repeat constructor.
  - destruct (comes_before x y); by repeat constructor.
Qed.

Lemma comes_before_counts (x y : str * value) :
  is_count (snd x) -> is_count (snd y) ->
  comes_before x y = (count_of y <? count_of x)%Z.
Proof.
  intros (a & Ha & _) (b & Hb & _). unfold comes_before, compare_entries, count_of.
  rewrite Ha, Hb. cbn. destruct (b - a <? 0)%Z eqn:H1, (b <? a)%Z eqn:H2; lia.
Qed.

Lemma insert_entry_decreasing x l :
  is_count (snd x) -> Forall (fun e => is_count (snd e)) l ->
  decreasing l -> decreasing (insert_entry x l).
Proof.
  intros Hx Hl Hs. unfold decreasing in *.
  induction Hs as [|y l Hs IH Hy]; cbn.
  - by repeat constructor.
  - inversion Hl as [|? ? Hcy Hl']; subst.
    rewrite comes_before_counts by done.
    destruct (count_of y <? count_of x)%Z eqn:Hlt.
    + constructor; [by constructor|]. constructor; [lia|].
      eapply Forall_impl; [exact Hy|]. cbn. intros z Hz. lia.
    + constructor; [by apply IH|].
      apply insert_entry_Forall; [lia | done].
Qed.

Lemma sort_entries_counts (l : list (str * value)) :
  Forall (fun e => is_count (snd e)) l ->
  Forall (fun e => is_count (snd e)) (sort_entries l) /\
  decreasing (sort_entries l).
Proof.
  unfold sort_entries.
  assert (H : forall acc,
    Forall (fun e => is_count (snd e)) acc -> decreasing acc ->
    Forall (fun e => is_count (snd e)) l ->
    Forall (fun e => is_count (snd e)) (fold_left (fun acc x => insert_entry x acc) l acc)
    /\ decreasing (fold_left (fun acc x => insert_entry x acc) l acc)).
  { induction l as [|x l IH]; intros acc Hacc Hs Hl; [done|].
    inversion Hl; subst. cbn. apply IH; [| |done].
    - by apply insert_entry_Forall.
    - by apply insert_entry_decreasing. }
  intros Hl. apply H; [constructor | constructor | done].
Qed.

Lemma decreasing_take (n : nat) (l : list (str * value)) :
  decreasing l -> decreasing (take n l).
Proof.
  unfold decreasing. intros Hs. revert n.
  induction Hs as [|x l Hs IH Hx]; intros [|n]; cbn; try constructor.
  - apply IH.
  - by apply Forall_take.
Qed.

(** Unless one of the words is [constructor], the extracted entries hold
    counts of 1 and more, in decreasing order. *)
Lemma extracted_entries_counts (text : str) :
  Forall (fun word => cleaned word <> lit "constructor") (tokenize_words text) ->
  Forall (fun e => is_count (snd e)) (extracted_entries text) /\
  decreasing (extracted_entries text).
Proof.
  intros Hw. unfold extracted_entries.
  destruct (sort_entries_counts
              (entries (word_frequencies (tokenize_words text)))) as [Hc Hs].
  { apply entries_Forall. by apply fold_count_word_counts. }
  split; [by apply Forall_take | by apply decreasing_take].
Qed.

Lemma keywords_extracted_entries (text : str) (r : rng) :
  exists extracted curated,
    keywords (fst (analyzeSEO text r)) = extracted ++ curated /\
    map (fun k => (keyword k, frequency k)) extracted = extracted_entries text /\
    map keyword curated = take 8 vocabulary /\
    map frequency curated = repeat (VNumber 0) 8.
Proof.
  destruct (keywords_extracted_then_curated text r)
    as (extracted & curated & Hk & Hw & Hf & _ & _ & Hc & Hc0 & _).
  exists extracted, curated. repeat split; [done | | done..].
  clear Hk. revert Hw Hf. generalize (extracted_entries text).
  induction extracted as [|k extracted IH]; intros [|[w f] l]; cbn; try done.
  intros [= -> Hw] [= -> Hf]. f_equal. by apply IH.
Qed.

(** Where no word of the text is [constructor], the list is as the
    specification says: at most 10 extracted keywords with counts of 1 and
    more in decreasing order, then 8 curated ones with frequency 0 in the
    order of the vocabulary. *)
Lemma keywords_without_constructor (text : str) (r : rng) :
  Forall (fun word => cleaned word <> lit "constructor") (tokenize_words text) ->
  exists extracted curated,
    keywords (fst (analyzeSEO text r)) = extracted ++ curated /\
    (length extracted <= 10)%nat /\
    Forall (fun k => is_count (frequency k)) extracted /\
    decreasing (map (fun k => (keyword k, frequency k)) extracted) /\
    map keyword curated = take 8 vocabulary /\
    map frequency curated = repeat (VNumber 0) 8 /\
    (length (keywords (fst (analyzeSEO text r))) <= 18)%nat.
Proof.
  intros Hw. destruct (extracted_entries_counts text Hw) as [Hc Hs].
  destruct (keywords_extracted_entries text r)
    as (extracted & curated & Hk & He & Hv & Hz).
  exists extracted, curated. rewrite He.
  assert (Hlen : (length extracted <= 10)%nat).
  { rewrite <- (length_map (fun k => (keyword k, frequency k))), He.
    unfold extracted_entries. rewrite length_take. lia. }
  repeat split; [done | done | | done | done | done |].
  - rewrite <- He in Hc. by rewrite Forall_map in Hc.
  - rewrite Hk, length_app.
    rewrite <- (length_map frequency curated), Hz. cbn. lia.
Qed.

(** C4 at a text with the word [constructor].  The second keyword is that
    word; its frequency is not a number but the source text of the
    function [Object] with a 1 appended, and its relevance is NaN: the
    lookup [wordFreq[cleanWord]] found the inherited property
    [constructor] of the object literal. *)
Theorem constructor_frequency_not_a_count (r : rng) :
  exists k1 k2 rest,
    fst (api_analyze (lit "Call the constructor.") r)
      = Ok (fst (analyzeSEO (lit "Call the constructor.") r)) /\
    keywords (fst (analyzeSEO (lit "Call the constructor.") r))
      = k1 :: k2 :: rest /\
    keyword k2 = lit "constructor" /\
    frequency k2 = VString (lit "function Object() { [native code] }1") /\
    ~ is_count (frequency k2) /\
    relevance k2 = None /\
    length rest = 8%nat.
Proof.
  set (text := lit "Call the constructor.").
  destruct (keywords_extracted_then_curated text r)
    as (extracted & curated & Hk & Hw & Hf & Hrel & _ & Hc & _ & _).
  assert (He : extracted_entries text
               = [(lit "call", VNumber 1);
                  (lit "constructor",
                   VString (lit "function Object() { [native code] }1"))])
    by (vm_compute; reflexivity).
  assert (Hn : relevance_of (VString (lit "function Object() { [native code] }1"))
                 (length (tokenize_words text)) = None) by reflexivity.
  rewrite He in Hw, Hf, Hrel. cbn [map fst snd] in Hw, Hf, Hrel.
  rewrite Hn in Hrel. clear He Hn.
  destruct extracted as [|k1 [|k2 [|k3 extracted]]]; try done.
  cbn [map] in Hw, Hf, Hrel. injection Hw as _ Hw2. injection Hf as _ Hf2.
  injection Hrel as _ Hrel2.
  exists k1, k2, curated. split; [|split; [done|]].
  { destruct (api_analyze_accepts text r) as [H | [e H]]; [done|].
    exfalso. assert (Hrej : exists e, fst (api_analyze text r) = BadRequest e)
      by eauto.
    apply api_analyze_rejects in Hrej as [Hnil | [Hb | Hlen]].
    - discriminate.
    - inversion Hb as [|? ? Hsp _]. discriminate.
    - vm_compute in Hlen. discriminate. }
  rewrite Hf2. repeat split; [done | | done |].
  - by intros (n & Hn & _).
  - apply (f_equal (@length str)) in Hc. by rewrite length_map in Hc.
Qed.

(** ** Scores as fractions of integers

    The selection compares scores.  Two candidates never have the same
    score: multiplied by [100 * len] the scores are integers, and for
    pieces at different even positions of an odd number of pieces these
    integers differ.  The scores of two candidates are therefore at least
    [1 / (100 * len)] apart. *)

Lemma Qmin_words (n : Z) :
  (Qmin (inject_Z n / 20) 1 == inject_Z (Z.min n 20) / 20)%Q.
Proof.
  destruct (Z.le_ge_cases n 20) as [H | H].
  - rewrite Z.min_l by done. apply Q.min_l.
    apply Qle_shift_div_r; [done|]. rewrite Zle_Qle in H.
    change (inject_Z 20) with 20%Q in H. lra.
  - rewrite Z.min_r by lia. rewrite Q.min_r.
    + reflexivity.
    + apply Qle_shift_div_l; [done|]. rewrite Zle_Qle in H.
      change (inject_Z 20) with 20%Q in H. lra.
Qed.

Lemma inject_Z_minus (x y : Z) : inject_Z (x - y) = (inject_Z x - inject_Z y)%Q.
Proof. unfold Z.sub. by rewrite inject_Z_plus, inject_Z_opp. Qed.

Lemma Qabs_position (i L : Z) :
  (Qabs (inject_Z i - inject_Z L / 2) == inject_Z (Z.abs (2 * i - L)) / 2)%Q.
Proof.
  destruct (Z.le_ge_cases 0 (2 * i - L)) as [H | H].
  - rewrite Z.abs_eq by done. rewrite Qabs_pos.
    + rewrite inject_Z_minus, inject_Z_mult. field.
    + rewrite Zle_Qle, inject_Z_minus, inject_Z_mult in H.
      assert (inject_Z L / 2 == (1 # 2) * inject_Z L)%Q by field. 
      change (inject_Z 2) with 2%Q in H. change (inject_Z 0) with 0%Q in H. lra.
  - rewrite Z.abs_neq by lia. rewrite Qabs_neg.
    + rewrite inject_Z_opp, inject_Z_minus, inject_Z_mult. field.
    + assert (H' : (2 * i - L <= 0)%Z) by lia.
      rewrite Zle_Qle, inject_Z_minus, inject_Z_mult in H'.
      assert (inject_Z L / 2 == (1 # 2) * inject_Z L)%Q by field. 
      change (inject_Z 2) with 2%Q in H'. change (inject_Z 0) with 0%Q in H'. lra.
Qed.

Lemma score_scaled (sentences : list str) (i : nat) (sentence : str) :
  (0 < length sentences)%nat ->
  (score sentences i sentence ==
   inject_Z (scaled_score (Z.of_nat (length sentences)) (Z.of_nat i)
               (Z.of_nat (length (split_on is_space (toLowerCase sentence)))))
   / inject_Z (100 * Z.of_nat (length sentences)))%Q.
Proof.
  intros HL. unfold score, num, scaled_score.
  rewrite Qmin_words, Qabs_position.
  set (L := Z.of_nat (length sentences)).
  set (n := Z.of_nat (length (split_on is_space (toLowerCase sentence)))).
  assert (HLq : ~ (inject_Z L == 0)%Q).
  { intros H. apply (proj1 (inject_Z_injective L 0)) in H. unfold L in H. lia. }
  rewrite !inject_Z_minus, !inject_Z_plus, !inject_Z_mult.
  change (inject_Z 100) with 100%Q. change (inject_Z 3) with 3%Q.
  change (inject_Z 40) with 40%Q. change (inject_Z 20) with 20%Q.
  field. done.
Qed.

Lemma scaled_score_distinct (t k k' n n' : Z) :
  (0 <= k)%Z -> (0 <= k')%Z -> k <> k' ->
  (2 * k < 2 * t + 1)%Z -> (2 * k' < 2 * t + 1)%Z ->
  (1 <= n)%Z -> (1 <= n')%Z ->
  scaled_score (2 * t + 1) (2 * k) n <> scaled_score (2 * t + 1) (2 * k') n'.
Proof.
  intros Hk Hk' Hne Hlt Hlt' Hn Hn'. unfold scaled_score.
  set (m := Z.min n 20). set (m' := Z.min n' 20).
  assert (Hm : (1 <= m <= 20)%Z) by (unfold m; lia).
  assert (Hm' : (1 <= m' <= 20)%Z) by (unfold m'; lia).
  clearbody m m'. clear Hn Hn' n n'.
  intros H.
  assert (Hd : exists d, (m = m' + d)%Z /\ (-19 <= d <= 19)%Z) by (exists (m - m')%Z; lia).
  destruct Hd as (d & -> & Hd).
  assert (Hcases : (d = -19 \/ d = -18 \/ d = -17 \/ d = -16 \/ d = -15 \/ d = -14 \/ d = -13 \/ d = -12 \/ d = -11 \/ d = -10 \/ d = -9 \/ d = -8 \/ d = -7 \/ d = -6 \/ d = -5 \/ d = -4 \/ d = -3 \/ d = -2 \/ d = -1 \/ d = 0 \/ d = 1 \/ d = 2 \/ d = 3 \/ d = 4 \/ d = 5 \/ d = 6 \/ d = 7 \/ d = 8 \/ d = 9 \/ d = 10 \/ d = 11 \/ d = 12 \/ d = 13 \/ d = 14 \/ d = 15 \/ d = 16 \/ d = 17 \/ d = 18 \/ d = 19)%Z) by lia.
  clear Hd. 
  repeat (destruct Hcases as [-> | Hcases]; [lia|]). subst d. lia.
Qed.

Lemma length_push (c : ascii) (l : list str) :
  l <> [] -> length (push c l) = length l.
Proof. by destruct l. Qed.

Lemma pieces_not_nil (st : scan) (s : str) : pieces st s <> [].
Proof.
  destruct s as [|c s]; [by destruct st|].
  cbn. destruct st; repeat case_match; try done;
    by destruct (pieces _ s).
Qed.

(** Sentences and separators alternate, first and last a sentence. *)
Lemma length_pieces (st : scan) (s : str) :
  exists t,
    length (pieces st s) =
    match st with
    | InSentence => (2 * t + 1)%nat
    | InPunct | InSpace => (2 * t + 2)%nat
    end.
Proof.
  revert st. induction s as [|c s IH]; intros st.
  - exists 0%nat. by destruct st.
  - destruct (IH InSentence) as [t1 H1]. destruct (IH InPunct) as [t2 H2].
    destruct (IH InSpace) as [t3 H3].
    cbn. destruct st; repeat case_match; cbn [length];
      rewrite length_push by apply pieces_not_nil.
    + exists (S t2). lia.
    + exists t1. lia.
    + exists t2. lia.
    + exists t3. lia.
    + exists t1. lia.
    + exists t3. lia.
    + exists (S t2). lia.
    + exists t1. lia.
Qed.

Lemma scaled_scores_differ (text : str) (i i' : nat) (s s' : str) :
  candidate (split_sentences text) i s ->
  candidate (split_sentences text) i' s' ->
  i <> i' ->
  scaled_score (Z.of_nat (length (split_sentences text))) (Z.of_nat i)
    (Z.of_nat (length (split_on is_space (toLowerCase s))))
  <> scaled_score (Z.of_nat (length (split_sentences text))) (Z.of_nat i')
       (Z.of_nat (length (split_on is_space (toLowerCase s')))).
Proof.
  intros (Hi & [k ->] & _) (Hi' & [k' ->] & _) Hne.
  destruct (length_pieces InSentence text) as [t Ht].
  fold (split_sentences text) in Ht.
  apply lookup_lt_Some in Hi, Hi'.
  rewrite Ht, !Nat2Z.inj_add, !Nat2Z.inj_mul. cbn [Z.of_nat].
  change (Z.pos 2) with 2%Z.
  apply scaled_score_distinct; try lia.
  - pose proof (fields_not_nil is_space false (toLowerCase s)).
    unfold split_on. lia.
  - pose proof (fields_not_nil is_space false (toLowerCase s')).
    unfold split_on. lia.
Qed.

(** Two candidates have scores at least [1 / (100 * len)] apart. *)
Lemma scores_apart (text : str) (i i' : nat) (s s' : str) :
  candidate (split_sentences text) i s ->
  candidate (split_sentences text) i' s' ->
  i <> i' ->
  (1 / (100 * num (length (split_sentences text)))
   <= Qabs (score (split_sentences text) i s
            - score (split_sentences text) i' s'))%Q.
Proof.
  intros Hc Hc' Hne.
  pose proof (scaled_scores_differ text i i' s s' Hc Hc' Hne) as Hz.
  destruct Hc as (Hi & _). apply lookup_lt_Some in Hi.
  assert (HL : (0 < length (split_sentences text))%nat) by lia.
  rewrite !score_scaled by done.
  set (z := scaled_score _ (Z.of_nat i) _) in *.
  set (z' := scaled_score _ (Z.of_nat i') _) in *.
  assert (Hc : (inject_Z (100 * Z.of_nat (length (split_sentences text)))
                == 100 * num (length (split_sentences text)))%Q)
    by (unfold num; by rewrite inject_Z_mult).
  rewrite Hc. clear Hc.
  pose proof (num_pos _ HL) as Hpos.
  set (c := (100 * num (length (split_sentences text)))%Q) in *.
  assert (Hcpos : (0 < / c)%Q) by (apply Qinv_lt_0_compat; unfold c; lra).
  unfold Qdiv. set (ic := (/ c)%Q) in *.
  assert (Hcases : (inject_Z z <= inject_Z z' - 1 \/ inject_Z z' <= inject_Z z - 1)%Q).
  { destruct (Z_lt_le_dec z z') as [Hlt | Hge].
    - left. assert (H : (z <= z' - 1)%Z) by lia.
      rewrite Zle_Qle, inject_Z_minus in H. exact H.
    - right. assert (H : (z' <= z - 1)%Z) by lia.
      rewrite Zle_Qle, inject_Z_minus in H. exact H. }
  destruct Hcases as [H | H].
  - assert (Hp : (0 <= (inject_Z z' - 1 - inject_Z z) * ic)%Q)
      by (apply Qmult_le_0_compat; lra).
    apply Qabs_case; intros Hs; lra.
  - assert (Hp : (0 <= (inject_Z z - 1 - inject_Z z') * ic)%Q)
      by (apply Qmult_le_0_compat; lra).
    apply Qabs_case; intros Hs; lra.
Qed.

Lemma scores_never_tie (text : str) (i i' : nat) (s s' : str) :
  candidate (split_sentences text) i s ->
  candidate (split_sentences text) i' s' ->
  i <> i' ->
  ~ (score (split_sentences text) i s == score (split_sentences text) i' s')%Q.
Proof.
  intros Hc Hc' Hne Heq.
  pose proof (scores_apart text i i' s s' Hc Hc' Hne) as Hgap.
  destruct Hc as (Hi & _). apply lookup_lt_Some in Hi.
  assert (HL : (0 < num (length (split_sentences text)))%Q)
    by (apply num_pos; lia).
  assert (Hpos : (0 < 1 / (100 * num (length (split_sentences text))))%Q).
  { apply Qlt_shift_div_l; lra. }
  rewrite Heq in Hgap.
  assert (Hz : (score (split_sentences text) i' s'
                - score (split_sentences text) i' s' == 0)%Q) by ring.
  rewrite Hz, Qabs_pos in Hgap by lra. lra.
Qed.

(** The selected sentence has a larger score than every other
    candidate. *)
Lemma selected_beats_the_others (text : str) (i : nat) (sentence : str) :
  candidate (split_sentences text) i sentence ->
  i <> fst (find_best (split_sentences text)) ->
  exists chosen,
    candidate (split_sentences text) (fst (find_best (split_sentences text))) chosen /\
    (score (split_sentences text) i sentence
     < score (split_sentences text) (fst (find_best (split_sentences text))) chosen)%Q.
Proof.
  intros Hc Hne.
  destruct (find_best_first_maximum _ _ _ Hc) as (chosen & Hchosen & Hle & _).
  exists chosen. split; [done|].
  pose proof (scores_never_tie text _ _ _ _ Hc Hchosen Hne) as Hneq.
  apply Qle_lteq in Hle as [Hlt | Heq]; [done | by destruct Hneq].
Qed.

(** ** The sentence that is selected *)

(** C1, as the code has it.  Among the sentence pieces that the loop does
    not skip (pieces at even positions of the split, separators included
    in the numbering, whose trimmed length is 10 or more) the sentence
    that gets the keyword is the first one of the largest score, where the
    score of piece [i] out of [len] pieces is
    [0.6 * min (words / 20) 1 + 0.4 * (1 - |i - len / 2| / len)] and
    [words] is the number of pieces of the lower-case sentence split on
    white space.  No other candidate has the same score. *)
Theorem insertKeyword_selects_first_maximum (text keyword : str) (r : rng)
    (i : nat) (sentence : str) :
  let sentences := split_sentences text in
  let best := fst (find_best sentences) in
  let len := num (length sentences) in
  let words s := num (length (split_on is_space (toLowerCase s))) in
  candidate sentences i sentence ->
  already_present text keyword = false ->
  exists chosen,
    candidate sentences best chosen /\
    (score sentences i sentence
     == 0.6 * Qmin (words sentence / 20) 1
        + 0.4 * (1 - Qabs (num i - len / 2) / len))%Q /\
    (score sentences best chosen
     == 0.6 * Qmin (words chosen / 20) 1
        + 0.4 * (1 - Qabs (num best - len / 2) / len))%Q /\
    (score sentences i sentence <= score sentences best chosen)%Q /\
    ((i < best)%nat ->
     (score sentences i sentence < score sentences best chosen)%Q) /\
    (i <> best ->
     (score sentences i sentence < score sentences best chosen)%Q) /\
    fst (insertKeywordIntelligently text keyword r) =
      concat (<[best := fst (rewrite_sentence chosen keyword r)]> sentences).
Proof.
  intros sentences best len words Hcand Hnew.
  destruct (find_best_first_maximum sentences i sentence Hcand)
    as (chosen & Hchosen & Hle & Hlt).
  exists chosen. split; [done|].
  split; [unfold score; fold len; fold (words sentence); ring|].
  split; [unfold score; fold len; fold (words chosen); ring|].
  split; [done|]. split; [done|].
  subst sentences best. split.
  { intros Hne.
    destruct (selected_beats_the_others text i sentence Hcand Hne)
      as (chosen' & (Hl' & _) & Hlt').
    destruct Hchosen as [Hl _]. rewrite Hl in Hl'. by injection Hl' as <-. }
  destruct (insertKeywordIntelligently_cases text keyword r)
    as [(_ & [Hp | [Hnone | Hnil]]) | (_ & s & Hs & _ & Hout)].
  - congruence.
  - destruct Hchosen as [Hl _]. congruence.
  - destruct Hchosen as (Hl & _ & Hsk). rewrite Hl in Hnil.
    injection Hnil as ->. done.
  - destruct Hchosen as [Hl _]. rewrite Hl in Hs. by injection Hs as ->.
Qed.

Lemma insertKeyword_selects_first_maximum_witness :
  exists chosen,
    candidate (split_sentences (lit "aa bb cc dd ee ff gg hh. alpha beta gamma"))
      0 chosen /\
    (score (split_sentences (lit "aa bb cc dd ee ff gg hh. alpha beta gamma"))
       2 (lit "alpha beta gamma")
     <= score (split_sentences (lit "aa bb cc dd ee ff gg hh. alpha beta gamma"))
          0 chosen)%Q.
Proof.
  destruct (insertKeyword_selects_first_maximum
              (lit "aa bb cc dd ee ff gg hh. alpha beta gamma") (lit "zzz")
              (constant_source 0) 2 (lit "alpha beta gamma"))
    as (chosen & Hc & _ & _ & Hle & _ & _ & _).
  - split; [reflexivity|]. split; [by exists 1%nat | reflexivity].
  - vm_compute. reflexivity.
  - exists chosen. split; [exact Hc | exact Hle].
Defined.

(** C1, as it is worded, fails: with the segments numbered 0 and 1 out of
    2, the second sentence of this text has the larger score (0.49 against
    0.44), and the code selects the first. *)
Lemma claimed_maximum_fails :
  ~ selects_claimed_maximum (lit "aa bb cc dd ee ff gg hh. alpha beta gamma").
Proof.
  intros H.
  specialize (H 1%nat (lit "alpha beta gamma") (lit "aa bb cc dd ee ff gg hh")).
  assert (Hle := H ltac:(vm_compute; reflexivity) ltac:(cbn; lia)
                   ltac:(vm_compute; reflexivity)).
  vm_compute in Hle. by apply Hle.
Qed.

(** The test for a candidate is on the trimmed length: the second
    sentence below has 10 characters, 2 without the trailing spaces, so
    the loop skips it and the keyword goes into the first piece. *)
Lemma padded_sentence_is_skipped :
  ~ selects_claimed_maximum (lit "a. bb        ") /\
  fst (insertKeywordIntelligently (lit "a. bb        ") (lit "zzz")
         (constant_source 0))
  = lit " including zzz a. bb        ".
Proof.
  split; [|vm_compute; reflexivity].
  intros H. specialize (H 1%nat (lit "bb        ") (lit "a")).
  assert (Hle := H ltac:(vm_compute; reflexivity) ltac:(cbn; lia)
                   ltac:(vm_compute; reflexivity)).
  vm_compute in Hle. by apply Hle.
Qed.

Example selected_sentence_of_the_two :
  fst (insertKeywordIntelligently
         (lit "aa bb cc dd ee ff gg hh. alpha beta gamma") (lit "zzz")
         (constant_source 0))
  = lit "aa bb including zzz cc dd ee ff gg hh. alpha beta gamma".
Proof. vm_compute. reflexivity. Qed.

(** * Further properties *)

(** ** The route [/api/insert-keyword] *)


(** ** Where the keyword goes in the sentence *)

Lemma random_below_zero (r : rng) : fst (random_below 0 r) = 0%Z.
Proof.
  unfold random_below, bind. destruct (Math_random r) as [u r']. cbn [fst ret].
  assert (H : (u * inject_Z 0 == 0)%Q) by (change (inject_Z 0) with 0%Q; ring).
  by rewrite H.
Qed.

Lemma Qfloor_scaled (n : nat) (a : Z) :
  (0 <= a)%Z ->
  (10 * Qfloor (num n * (a # 10)) <= a * Z.of_nat n
   < 10 * Qfloor (num n * (a # 10)) + 10)%Z.
Proof.
  intros Ha. set (q := (num n * (a # 10))%Q).
  pose proof (Qfloor_le q) as Hlo. pose proof (Qlt_floor q) as Hhi.
  assert (Hq : (10 * q == inject_Z (a * Z.of_nat n))%Q).
  { unfold q, num. rewrite inject_Z_mult.
    rewrite (Qmake_Qdiv a 10). change (inject_Z (Z.pos 10)) with 10%Q. field. }
  clearbody q. rewrite inject_Z_plus in Hhi. change (inject_Z 1) with 1%Q in Hhi.
  assert (H1 : (inject_Z (10 * Qfloor q) <= inject_Z (a * Z.of_nat n))%Q).
  { rewrite <- Hq, inject_Z_mult. change (inject_Z 10) with 10%Q. lra. }
  assert (H2 : (inject_Z (a * Z.of_nat n) < inject_Z (10 * Qfloor q + 10))%Q).
  { rewrite <- Hq, inject_Z_plus, inject_Z_mult. change (inject_Z 10) with 10%Q. lra. }
  rewrite <- Zle_Qle in H1. rewrite <- Zlt_Qlt in H2. done.
Qed.

(** The insertion index is below the number of words of the sentence; it
    is 0 for three words and fewer and at least 1 from four words on. *)
Lemma rewrite_sentence_index (sentence keyword : str) (r : rng) :
  exists insertIndex connector,
    In connector connectors /\
    fst (rewrite_sentence sentence keyword r) =
      join (lit " ") (take insertIndex (split_on is_space sentence))
      ++ lit " " ++ connector ++ lit " " ++ keyword ++ lit " "
      ++ join (lit " ") (drop insertIndex (split_on is_space sentence)) /\
    (insertIndex < length (split_on is_space sentence))%nat /\
    (10 * insertIndex < 7 * length (split_on is_space sentence))%nat /\
    (length (split_on is_space sentence) <= 3 -> insertIndex = 0)%nat /\
    (4 <= length (split_on is_space sentence) -> 1 <= insertIndex)%nat.
Proof.
  unfold rewrite_sentence, bind.
  set (n := length (split_on is_space sentence)).
  assert (Hn : (0 < n)%nat) by apply fields_not_nil.
  pose proof (Qfloor_scaled n 3 ltac:(lia)) as H3.
  pose proof (Qfloor_scaled n 4 ltac:(lia)) as H4.
  change (3 # 10) with 0.3%Q in H3. change (4 # 10) with 0.4%Q in H4.
  set (f3 := Qfloor (num n * 0.3)) in *. set (f4 := Qfloor (num n * 0.4)) in *.
  assert (Hj : (0 <= fst (random_below f4 r))%Z /\
               ((fst (random_below f4 r) < f4)%Z \/
                (f4 = 0%Z /\ fst (random_below f4 r) = 0%Z))).
  { destruct (Z.eq_dec f4 0%Z) as [Hz | Hne].
    - rewrite Hz, random_below_zero. lia.
    - assert (Hpos : (0 < f4)%Z) by lia.
      pose proof (random_below_range f4 r Hpos). lia. }
  destruct (random_below f4 r) as [jitter r1].
  pose proof (random_below_range (Z.of_nat (length connectors)) r1) as Hc.
  destruct (random_below _ r1) as [choice r2]. cbn [fst ret] in *.
  eexists _, _. split; [|split; [reflexivity|]].
  { apply nth_In. cbn in Hc |- *. lia. }
  repeat split; lia.
Qed.

(** The parts of a reported insertion: the pieces before and after the
    selected sentence, the words of the sentence before and after the
    insertion index, and the connector. *)
Lemma insertion_parts (text keyword : str) (r : rng) (updated : str) :
  fst (api_insert_keyword text keyword r)
  = Ok {| updatedText := updated; inserted := true |} ->
  exists before sentence after insertIndex connector,
    split_sentences text = before ++ sentence :: after /\
    length before = fst (find_best (split_sentences text)) /\
    sentence <> [] /\
    In connector connectors /\
    (insertIndex < length (split_on is_space sentence))%nat /\
    (length (split_on is_space sentence) <= 3 -> insertIndex = 0)%nat /\
    (4 <= length (split_on is_space sentence) -> 1 <= insertIndex)%nat /\
    updated =
      concat before
      ++ (join (lit " ") (take insertIndex (split_on is_space sentence))
          ++ lit " " ++ connector ++ lit " " ++ keyword ++ lit " "
          ++ join (lit " ") (drop insertIndex (split_on is_space sentence)))
      ++ concat after.
Proof.
  intros H. apply api_insert_keyword_ok in H as (_ & _ & Hup & Hins).
  cbn [updatedText inserted] in *.
  destruct (insertKeywordIntelligently_cases text keyword r)
    as [[Hsame _] | (_ & sentence & Hs & Hne & Hnew)].
  { rewrite Hup, Hsame, str_eqb_refl in Hins. done. }
  set (sentences := split_sentences text) in *.
  set (best := fst (find_best sentences)) in *.
  pose proof (lookup_lt_Some _ _ _ Hs) as Hlt.
  destruct (rewrite_sentence_index sentence keyword r)
    as (i & connector & Hc & Hrw & Hi & _ & Hshort & Hlong).
  exists (take best sentences), sentence, (drop (S best) sentences), i, connector.
  split; [by rewrite take_drop_middle|].
  split; [rewrite length_take_le; lia|].
  repeat (split; [done|]).
  rewrite Hup, Hnew, insert_take_drop, concat_app, Hrw by done. done.
Qed.

(** X2.  When the route reports an insertion, the connector and the
    keyword stand between two words of the selected sentence, single
    spaces around them; a word of the sentence always follows the keyword.
    In a sentence of four words and more a word also precedes the
    connector; in a sentence of three words and fewer none does, the
    connector comes first. *)
Theorem keyword_position_in_sentence (text keyword : str) (r : rng)
    (updated : str) :
  fst (api_insert_keyword text keyword r)
  = Ok {| updatedText := updated; inserted := true |} ->
  exists before sentence after wordsBefore wordsAfter connector,
    split_sentences text = before ++ sentence :: after /\
    split_on is_space sentence = wordsBefore ++ wordsAfter /\
    wordsAfter <> [] /\
    (length (split_on is_space sentence) <= 3 -> wordsBefore = [])%nat /\
    (4 <= length (split_on is_space sentence) -> wordsBefore <> [])%nat /\
    In connector connectors /\
    updated =
      concat before
      ++ (join (lit " ") wordsBefore ++ lit " " ++ connector ++ lit " "
          ++ keyword ++ lit " " ++ join (lit " ") wordsAfter)
      ++ concat after.
Proof.
  intros H.
  destruct (insertion_parts text keyword r updated H)
    as (before & sentence & after & i & connector & Hsplit & _ & _ & Hc
        & Hi & Hshort & Hlong & Hup).
  exists before, sentence, after, (take i (split_on is_space sentence)),
    (drop i (split_on is_space sentence)), connector.
  split; [done|]. split; [by rewrite take_drop|].
  split.
  { intros Hnil. apply (f_equal (@length str)) in Hnil.
    rewrite length_drop in Hnil. cbn in Hnil. lia. }
  split; [intros Hn; by rewrite (Hshort Hn)|].
  split; [|done].
  intros Hn Hnil. apply (f_equal (@length str)) in Hnil.
  rewrite length_take in Hnil. cbn in Hnil. specialize (Hlong Hn). lia.
Qed.

Lemma keyword_position_in_sentence_witness :
  exists before sentence after wordsBefore wordsAfter connector,
    split_sentences (lit "Dogs bark loudly at night. Cats sleep.")
      = before ++ sentence :: after /\
    split_on is_space sentence = wordsBefore ++ wordsAfter /\
    wordsAfter <> [] /\
    In connector connectors.
Proof.
  destruct (keyword_position_in_sentence
              (lit "Dogs bark loudly at night. Cats sleep.") (lit "nutrition")
              (constant_source 0)
              (lit "Dogs bark loudly at night.  including nutrition Cats sleep."))
    as (before & sentence & after & wb & wa & connector
        & H1 & H2 & H3 & _ & _ & H4 & _).
  - vm_compute. reflexivity.
  - by exists before, sentence, after, wb, wa, connector.
Defined.

(** X3.  An insertion loses no character of the text other than white
    space and keeps the order of those it keeps: the characters of the
    updated text that are not white space are those of the text with those
    of the connector and of the keyword put in at one place. *)
Theorem insertion_keeps_letters (text keyword : str) (r : rng) (updated : str) :
  fst (api_insert_keyword text keyword r)
  = Ok {| updatedText := updated; inserted := true |} ->
  exists front back connector,
    In connector connectors /\
    letters text = front ++ back /\
    letters updated = front ++ letters connector ++ letters keyword ++ back.
Proof.
  intros H.
  destruct (insertion_parts text keyword r updated H)
    as (before & sentence & after & i & connector & Hsplit & _ & _ & Hc
        & _ & _ & _ & ->).
  pose proof (fields_no_separator is_space false sentence) as Hw.
  fold (split_on is_space sentence) in Hw.
  set (words := split_on is_space sentence) in *.
  exists (letters (concat before) ++ concat (take i words)),
    (concat (drop i words) ++ letters (concat after)), connector.
  split; [done|]. split.
  - rewrite <- (concat_split_sentences text), Hsplit, concat_app. cbn [concat].
    rewrite !letters_app.
    assert (Hs : letters sentence = concat (take i words) ++ concat (drop i words)).
    { rewrite <- concat_app, take_drop. unfold words, split_on.
      by rewrite concat_fields_space. }
    rewrite Hs. by rewrite <- !app_assoc.
  - rewrite !letters_app, !letters_join
      by (by apply Forall_take || by apply Forall_drop).
    assert (Hsp : letters (lit " ") = []) by reflexivity.
    rewrite Hsp. cbn [app]. by rewrite <- !app_assoc.
Qed.

Lemma insertion_keeps_letters_witness :
  exists front back connector,
    In connector connectors /\
    letters (lit "Dogs bark loudly at night. Cats sleep.") = front ++ back /\
    letters (lit "Dogs bark loudly at night.  including nutrition Cats sleep.")
      = front ++ letters connector ++ letters (lit "nutrition") ++ back.
Proof.
  apply (insertion_keeps_letters
           (lit "Dogs bark loudly at night. Cats sleep.") (lit "nutrition")
           (constant_source 0)).
  vm_compute. reflexivity.
Defined.

(** ** When an insertion is reported *)

(** X4.  The route reports an insertion exactly when the keyword is not
    already present and the selected piece of the split is not empty; the
    draws have no part in it.  On a text that starts with a sentence
    character the selected piece is never empty, so [inserted] is the
    negation of the check. *)
Theorem insertion_reported_iff (text keyword : str) (r : rng)
    (result : InsertionResult) :
  fst (api_insert_keyword text keyword r) = Ok result ->
  (inserted result = true <->
   already_present text keyword = false /\
   exists sentence,
     split_sentences text !! fst (find_best (split_sentences text))
       = Some sentence /\
     sentence <> []) /\
  (starts_with_sentence text ->
   inserted result = negb (already_present text keyword)).
Proof.
  intros Hok. pose proof (api_insert_keyword_ok _ _ _ _ Hok)
    as (Ht & Hk & Hup & Hins).
  assert (Hiff : inserted result = true <->
                 already_present text keyword = false /\
                 exists sentence,
                   split_sentences text !! fst (find_best (split_sentences text))
                     = Some sentence /\ sentence <> []).
  { split.
    - intros Htrue.
      destruct (insertKeywordIntelligently_cases text keyword r)
        as [[Hsame _] | (Hnew & sentence & Hs & Hne & _)].
      + rewrite Hins, Hup, Hsame, str_eqb_refl in Htrue. done.
      + eauto.
    - intros (Hnew & sentence & Hs & Hne).
      rewrite (api_insert_keyword_inserts text keyword r sentence) in Hok
        by done.
      by injection Hok as <-. }
  split; [done|]. intros Hstart.
  destruct (already_present text keyword) eqn:Hp; cbn.
  - apply not_true_is_false. intros Htrue. apply Hiff in Htrue as [? _]. done.
  - apply Hiff. split; [done|]. by apply find_best_lookup.
Qed.

Lemma insertion_reported_iff_witness :
  negb (str_eqb (lit "Cats are great pets.") (lit "Cats are great pets."))
  = negb (already_present (lit "Cats are great pets.") (lit "cats")).
Proof.
  refine (proj2 (insertion_reported_iff
            (lit "Cats are great pets.") (lit "cats") (constant_source 0)
            {| updatedText := lit "Cats are great pets.";
               inserted := negb (str_eqb (lit "Cats are great pets.")
                                   (lit "Cats are great pets.")) |} _) _).
  - vm_compute. reflexivity.
  - eexists _, _. split; [vm_compute; reflexivity | discriminate].
Defined.

(** X5.  A keyword without white space is inserted once: on the text that
    a reported insertion returned, a further call finds the keyword
    present and returns that text as it is, whatever it draws. *)
Theorem second_call_changes_nothing (text keyword : str) (r r' : rng)
    (updated : str) :
  existsb is_space keyword = false ->
  fst (api_insert_keyword text keyword r)
  = Ok {| updatedText := updated; inserted := true |} ->
  fst (api_insert_keyword updated keyword r')
  = Ok {| updatedText := updated; inserted := false |}.
Proof.
  intros Hk H. pose proof (api_insert_keyword_ok _ _ _ _ H) as (_ & Hne & _).
  destruct (insertion_parts text keyword r updated H)
    as (before & sentence & after & i & connector & _ & _ & _ & _
        & _ & _ & _ & ->).
  set (front := concat before
                ++ join (lit " ") (take i (split_on is_space sentence))
                ++ lit " " ++ connector).
  set (back := join (lit " ") (drop i (split_on is_space sentence))
               ++ concat after).
  assert (Hup : concat before
                ++ (join (lit " ") (take i (split_on is_space sentence))
                    ++ lit " " ++ connector ++ lit " " ++ keyword ++ lit " "
                    ++ join (lit " ") (drop i (split_on is_space sentence)))
                ++ concat after
                = (front ++ lit " ") ++ keyword ++ lit " " ++ back).
  { unfold front, back. by rewrite <- !app_assoc. }
  rewrite Hup. clearbody front back.
  apply api_insert_keyword_present; [by destruct front | done |].
  unfold already_present. apply existsb_exists.
  exists (toLowerCase keyword).
  split; [|apply includes_spec; exists [], []; cbn; by rewrite app_nil_r].
  apply word_of_split; [by destruct keyword|].
  exists (toLowerCase (front ++ lit " ")), (toLowerCase (lit " " ++ back)).
  split; [unfold toLowerCase; by rewrite !map_app|].
  split; [|split].
  - apply Forall_forall. intros c Hc. apply not_true_is_false. intros Hsp.
    assert (Hex : existsb is_space (toLowerCase keyword) = true)
      by (apply existsb_exists; exists c; split; [by apply list_elem_of_In|done]).
    rewrite toLowerCase_has_space in Hex. congruence.
  - right. exists (toLowerCase front), " "%char.
    split; [unfold toLowerCase; by rewrite map_app | done].
  - right. by exists " "%char, (toLowerCase back).
Qed.

Lemma second_call_changes_nothing_witness :
  fst (api_insert_keyword
         (lit "Dogs bark loudly at night.  including nutrition Cats sleep.")
         (lit "nutrition") (constant_source 3))
  = Ok {| updatedText :=
            lit "Dogs bark loudly at night.  including nutrition Cats sleep.";
          inserted := false |}.
Proof.
  apply (second_call_changes_nothing
           (lit "Dogs bark loudly at night. Cats sleep.") (lit "nutrition")
           (constant_source 0)).
  - reflexivity.
  - vm_compute. reflexivity.
Defined.

(** X6.  When no sentence of the split has 10 characters after trimming,
    the loop selects nothing and the first piece takes the keyword: the
    keyword goes in front of or into the first sentence; and when the text
    starts with one of [.!?] that piece is empty and the text comes back
    as it is, with a keyword that is not in it. *)
Theorem short_sentences_fall_back (text keyword : str) (r : rng)
    (first : str) (rest : list str) :
  (forall i s, split_sentences text !! i = Some s -> Nat.Even i ->
     (length (trim s) < 10)%nat) ->
  already_present text keyword = false ->
  split_sentences text = first :: rest ->
  fst (find_best (split_sentences text)) = 0%nat /\
  fst (insertKeywordIntelligently text keyword r) =
    match first with
    | [] => text
    | _ :: _ => fst (rewrite_sentence first keyword r) ++ concat rest
    end.
Proof.
  intros Hshort Hnew Hsplit.
  assert (Hbest : fst (find_best (split_sentences text)) = 0%nat).
  { destruct (find_best_so_far (split_sentences text))
      as [_ [(Hb & _) | (kb & s & _ & _ & Hs & Hsk & _)]]; [done|].
    assert (Hlen : (length (trim s) < 10)%nat)
      by (apply (Hshort (2 * kb)%nat s Hs); by exists kb).
    unfold skipped in Hsk. apply orb_false_elim in Hsk as [_ Hsk].
    apply Nat.ltb_ge in Hsk. lia. }
  split; [done|].
  pose proof (insertKeywordIntelligently_cases text keyword r) as Hcases.
  cbn zeta in Hcases. rewrite Hbest, Hsplit in Hcases. cbn in Hcases.
  destruct Hcases
    as [(Hsame & [Hp | [Hnone | Hnil]]) | (_ & s & Hs & Hne & Hout)].
  - congruence.
  - done.
  - injection Hnil as ->. done.
  - injection Hs as <-. destruct first; [done|]. by rewrite Hout.
Qed.

Lemma short_sentences_fall_back_witness :
  fst (insertKeywordIntelligently (lit "?Why not") (lit "zzz") (constant_source 0))
  = lit "?Why not".
Proof.
  refine (proj2 (short_sentences_fall_back (lit "?Why not") (lit "zzz")
                   (constant_source 0) [] [lit "?"; lit "Why not"] _ _ _)).
  - intros i s Hs _.
    destruct i as [|[|[|i]]]; cbn in Hs; try discriminate;
      injection Hs as <-; vm_compute; lia.
  - reflexivity.
  - reflexivity.
Defined.

(** ** The object [wordFreq]: what is stored is what is read *)

Lemma str_eqb_neq (a b : str) : a <> b -> str_eqb a b = false.
Proof. intros H. apply not_true_is_false. by rewrite str_eqb_eq. Qed.

Lemma own_get_own_set_eq (o : object) (k : str) (v : value) :
  own_get (own_set o k v) k = Some v.
Proof.
  induction o as [|[k' v'] o IH]; cbn.
  - by rewrite str_eqb_refl.
  - destruct (str_eqb k' k) eqn:Hk; cbn; by rewrite Hk.
Qed.

Lemma own_get_own_set_ne (o : object) (k k' : str) (v : value) :
  k <> k' -> own_get (own_set o k v) k' = own_get o k'.
Proof.
  intros Hne. induction o as [|[k0 v0] o IH]; cbn.
  - by rewrite str_eqb_neq.
  - destruct (str_eqb k0 k) eqn:Hk; cbn.
    + apply str_eqb_eq in Hk as ->. by rewrite str_eqb_neq.
    + by rewrite IH.
Qed.

Lemma own_get_None_keys (o : object) (k : str) :
  own_get o k = None <-> ~ In k (map fst o).
Proof.
  induction o as [|[k' v'] o IH]; cbn; [tauto|].
  destruct (str_eqb k' k) eqn:Hk.
  - apply str_eqb_eq in Hk as ->. split; [done | tauto].
  - rewrite IH. split; [|tauto].
    intros Hn [-> | H]; [by rewrite str_eqb_refl in Hk | done].
Qed.

Lemma own_set_keys (o : object) (k : str) (v : value) :
  map fst (own_set o k v) =
  match own_get o k with
  | Some _ => map fst o
  | None => map fst o ++ [k]
  end.
Proof.
  induction o as [|[k' v'] o IH]; cbn; [done|].
  destruct (str_eqb k' k) eqn:Hk; cbn; [done|].
  rewrite IH. by destruct (own_get o k).
Qed.

Lemma own_set_NoDup (o : object) (k : str) (v : value) :
  NoDup (map fst o) -> NoDup (map fst (own_set o k v)).
Proof.
  intros Hnd. rewrite own_set_keys.
  destruct (own_get o k) eqn:Hg; [done|].
  apply own_get_None_keys in Hg.
  apply NoDup_app. split; [done|]. split.
  - intros x Hx [-> | []]%list_elem_of_In. by apply list_elem_of_In in Hx.
  - apply NoDup_singleton.
Qed.

Lemma own_get_In (o : object) (k : str) (v : value) :
  NoDup (map fst o) -> In (k, v) o -> own_get o k = Some v.
Proof.
  induction o as [|[k' v'] o IH]; cbn; [done|].
  intros Hnd [[= -> ->] | Hin].
  - by rewrite str_eqb_refl.
  - apply NoDup_cons in Hnd as [Hk Hnd].
    destruct (str_eqb k' k) eqn:Heq; [|by apply IH].
    apply str_eqb_eq in Heq as ->. destruct Hk.
    apply list_elem_of_In. by apply (in_map fst) in Hin.
Qed.

(** The keys of [wordFreq] are distinct and [__proto__] is none of them. *)
Lemma count_word_keys (wordFreq : object) (word : str) :
  NoDup (map fst wordFreq) /\ ~ In (lit "__proto__") (map fst wordFreq) ->
  NoDup (map fst (count_word wordFreq word)) /\
  ~ In (lit "__proto__") (map fst (count_word wordFreq word)).
Proof.
  intros [Hnd Hp]. unfold count_word. case_match; [|done].
  unfold set. destruct (str_eqb _ (lit "__proto__")) eqn:Hproto; [done|].
  split; [by apply own_set_NoDup|].
  rewrite own_set_keys. case_match; [done|].
  rewrite in_app_iff. intros [Hin | [Heq | []]]; [done|].
  rewrite <- Heq, str_eqb_refl in Hproto. done.
Qed.

Lemma word_frequencies_keys (words : list str) :
  NoDup (map fst (word_frequencies words)) /\
  ~ In (lit "__proto__") (map fst (word_frequencies words)).
Proof.
  unfold word_frequencies.
  assert (H : forall o,
    NoDup (map fst o) /\ ~ In (lit "__proto__") (map fst o) ->
    NoDup (map fst (fold_left count_word words o)) /\
    ~ In (lit "__proto__") (map fst (fold_left count_word words o))).
  { induction words as [|w words IH]; intros o Ho; [done|].
    cbn. apply IH. by apply count_word_keys. }
  apply H. split; [constructor | by intros []].
Qed.

(** One word changes the count under its own key only. *)
Lemma count_word_get (wordFreq : object) (word k : str) (m : nat) :
  k <> lit "constructor" -> k <> lit "__proto__" ->
  (own_get wordFreq k = None /\ m = 0%nat \/
   own_get wordFreq k = Some (VNumber (Z.of_nat m)) /\ (0 < m)%nat) ->
  let m' := (m + occurrences k [word])%nat in
  own_get (count_word wordFreq word) k = None /\ m' = 0%nat \/
  own_get (count_word wordFreq word) k = Some (VNumber (Z.of_nat m'))
  /\ (0 < m')%nat.
Proof.
  intros Hc Hp Hm. unfold occurrences, count_word, eligible. cbn [List.filter].
  fold (cleaned word).
  destruct ((3 <? length (cleaned word))%nat
            && negb (existsb (str_eqb (cleaned word)) commonWords)) eqn:Hel;
    cbn [andb]; [|cbn; rewrite Nat.add_0_r; exact Hm].
  destruct (str_eqb (cleaned word) k) eqn:Hk; cbn [length].
  - apply str_eqb_eq in Hk. rewrite Hk. unfold set.
    rewrite (str_eqb_neq k (lit "__proto__")) by done.
    rewrite own_get_own_set_eq. right. split; [|lia].
    unfold get, prototype_get.
    rewrite (str_eqb_neq k (lit "constructor")), (str_eqb_neq k (lit "__proto__"))
      by done.
    destruct Hm as [[-> ->] | [-> Hpos]]; cbn.
    + done.
    + unfold or_else. cbn. destruct (Z.of_nat m =? 0)%Z eqn:H0; [lia|].
      cbn. do 2 f_equal. lia.
  - rewrite Nat.add_0_r. unfold set.
    destruct (str_eqb (cleaned word) (lit "__proto__")); [exact Hm|].
    rewrite own_get_own_set_ne; [exact Hm|].
    intros Heq. rewrite Heq, str_eqb_refl in Hk. done.
Qed.

Lemma occurrences_cons (k word : str) (words : list str) :
  occurrences k (word :: words)
  = (occurrences k [word] + occurrences k words)%nat.
Proof.
  unfold occurrences. cbn [List.filter].
  destruct (eligible word && str_eqb (cleaned word) k); cbn; lia.
Qed.

(** Reading [wordFreq] under a key gives the number of words counted
    under it, and nothing when there is none. *)
Lemma word_frequencies_get (words : list str) (k : str) :
  k <> lit "constructor" -> k <> lit "__proto__" ->
  own_get (word_frequencies words) k =
  match occurrences k words with
  | O => None
  | S n => Some (VNumber (Z.of_nat (S n)))
  end.
Proof.
  intros Hc Hp. unfold word_frequencies.
  assert (H : forall o m,
    (own_get o k = None /\ m = 0%nat \/
     own_get o k = Some (VNumber (Z.of_nat m)) /\ (0 < m)%nat) ->
    own_get (fold_left count_word words o) k = None
      /\ (m + occurrences k words = 0)%nat \/
    own_get (fold_left count_word words o) k
      = Some (VNumber (Z.of_nat (m + occurrences k words)))
      /\ (0 < m + occurrences k words)%nat).
  { induction words as [|w words IH]; intros o m Hm.
    - unfold occurrences. cbn. rewrite Nat.add_0_r. exact Hm.
    - cbn [fold_left]. rewrite occurrences_cons, Nat.add_assoc.
      apply IH. by apply count_word_get. }
  destruct (H [] 0%nat) as [[-> H0] | [-> Hpos]]; [by left | |]; cbn in *.
  - by rewrite H0.
  - by destruct (occurrences k words); [lia|].
Qed.

(** ** Entries, sorted: the same entries in another order *)

Lemma insert_index_Permutation e l : Permutation (insert_index e l) (e :: l).
Proof.
  induction l as [|e' l IH]; cbn; [done|].
  destruct (fst e <? fst e')%N; [done|].
  rewrite IH. apply perm_swap.
Qed.

Lemma filter_split_Permutation {A} (f : A -> bool) (l : list A) :
  Permutation (List.filter f l ++ List.filter (fun x => negb (f x)) l) l.
Proof.
  induction l as [|x l IH]; cbn; [done|].
  destruct (f x); cbn.
  - by constructor.
  - rewrite <- Permutation_middle. by constructor.
Qed.

Lemma entries_Permutation (o : object) : Permutation (entries o) o.
Proof.
  unfold entries.
  assert (Hidx : Permutation (map snd (fold_right insert_index [] (indexed o)))
                   (List.filter (fun e => match array_index (fst e) with
                                          | Some _ => true
                                          | None => false
                                          end) o)).
  { transitivity (map snd (indexed o)).
    - apply Permutation_map. generalize (indexed o). intros l.
      induction l as [|e l IH]; cbn; [done|].
      rewrite insert_index_Permutation. by constructor.
    - unfold indexed. induction o as [|e o IH]; cbn; [done|].
      destruct (array_index (fst e)); cbn; [by constructor | done]. }
  rewrite Hidx.
  rewrite <- (filter_split_Permutation
                (fun e => match array_index (fst e) with
                          | Some _ => true
                          | None => false
                          end) o) at 3.
  apply Permutation_app_head.
  assert (Heq : forall l : object,
    List.filter (fun e => match array_index (fst e) with
                          | Some _ => false
                          | None => true
                          end) l
    = List.filter (fun x => negb match array_index (fst x) with
                                 | Some _ => true
                                 | None => false
                                 end) l).
  { intros l. apply filter_ext. intros e. by destruct (array_index (fst e)). }
  by rewrite Heq.
Qed.

Lemma insert_entry_Permutation x l : Permutation (insert_entry x l) (x :: l).
Proof.
  induction l as [|y l IH]; cbn; [done|].
  destruct (comes_before x y); [done|].
  rewrite IH. apply perm_swap.
Qed.

Lemma sort_entries_Permutation (l : list (str * value)) :
  Permutation (sort_entries l) l.
Proof.
  unfold sort_entries.
  assert (H : forall acc,
    Permutation (fold_left (fun acc x => insert_entry x acc) l acc) (acc ++ l)).
  { induction l as [|x l IH]; intros acc; cbn.
    - by rewrite app_nil_r.
    - rewrite IH, insert_entry_Permutation. apply Permutation_middle. }
  apply (H []).
Qed.

(** The extracted entries are entries of [wordFreq], each once. *)
Lemma extracted_entries_In (text : str) (e : str * value) :
  In e (extracted_entries text) ->
  In e (word_frequencies (tokenize_words text)).
Proof.
  unfold extracted_entries. intros Hin.
  assert (Hs : In e (sort_entries
                 (entries (word_frequencies (tokenize_words text))))).
  { rewrite <- (take_drop 10 (sort_entries _)). apply in_or_app. by left. }
  apply list_elem_of_In. apply list_elem_of_In in Hs.
  by rewrite sort_entries_Permutation, entries_Permutation in Hs.
Qed.

Lemma extracted_entries_NoDup (text : str) :
  NoDup (map fst (extracted_entries text)).
Proof.
  unfold extracted_entries.
  assert (Hnd : NoDup (map fst (sort_entries
                  (entries (word_frequencies (tokenize_words text)))))).
  { rewrite sort_entries_Permutation, entries_Permutation.
    apply word_frequencies_keys. }
  rewrite <- (take_drop 10 (sort_entries _)), map_app in Hnd.
  by apply NoDup_app in Hnd as [Hnd _].
Qed.

(** Every key of [wordFreq] is the cleaned form of a counted word. *)
Lemma count_word_key_origin (wordFreq : object) (word k : str) :
  In k (map fst (count_word wordFreq word)) ->
  In k (map fst wordFreq) \/ (eligible word = true /\ cleaned word = k).
Proof.
  unfold count_word, eligible. fold (cleaned word).
  destruct ((3 <? length (cleaned word))%nat
            && negb (existsb (str_eqb (cleaned word)) commonWords)); [|by left].
  unfold set. destruct (str_eqb (cleaned word) (lit "__proto__")); [by left|].
  rewrite own_set_keys. destruct (own_get wordFreq (cleaned word)); [by left|].
  rewrite in_app_iff. intros [Hin | [<- | []]]; [by left | by right].
Qed.

Lemma word_frequencies_key_origin (words : list str) (k : str) :
  In k (map fst (word_frequencies words)) ->
  exists word, In word words /\ eligible word = true /\ cleaned word = k.
Proof.
  unfold word_frequencies.
  assert (H : forall o,
    In k (map fst (fold_left count_word words o)) ->
    In k (map fst o) \/
    exists word, In word words /\ eligible word = true /\ cleaned word = k).
  { induction words as [|w words IH]; intros o Hin; [by left|].
    cbn in Hin. destruct (IH _ Hin) as [Hk | (word & Hw & He & Hc)].
    - destruct (count_word_key_origin _ _ _ Hk) as [Ho | [He Hc]]; [by left|].
      right. exists w. split; [by left | done].
    - right. exists word. split; [by right | done]. }
  intros Hin. by destruct (H [] Hin) as [[] | Hw].
Qed.

Lemma cleaned_word_chars (word : str) :
  Forall (fun c => is_word_char c = true) (cleaned word).
Proof.
  unfold cleaned. apply Forall_forall. intros c Hc.
  apply list_elem_of_In, filter_In in Hc. tauto.
Qed.

(** What an extracted entry holds: a key that is the cleaned form of a
    counted word and, unless the key is [constructor], the number of words
    counted under it. *)
Lemma extracted_entry_spec (text : str) (k : str) (v : value) :
  In (k, v) (extracted_entries text) ->
  (exists word, In word (tokenize_words text) /\ eligible word = true
                /\ cleaned word = k) /\
  (k <> lit "constructor" ->
   v = VNumber (Z.of_nat (occurrences k (tokenize_words text))) /\
   (1 <= occurrences k (tokenize_words text))%nat).
Proof.
  intros Hin. apply extracted_entries_In in Hin.
  destruct (word_frequencies_keys (tokenize_words text)) as [Hnd Hproto].
  assert (Hk : In k (map fst (word_frequencies (tokenize_words text))))
    by (by apply (in_map fst) in Hin).
  split; [by apply word_frequencies_key_origin|].
  intros Hc. apply (own_get_In _ _ _ Hnd) in Hin.
  rewrite word_frequencies_get in Hin; [|done | by intros ->].
  destruct (occurrences k (tokenize_words text)); [done|].
  injection Hin as <-. split; [done | lia].
Qed.

(** X7.  The extracted keywords are cleaned forms of words of the text
    that pass the filter (more than 3 characters, no stop word), and the
    frequency of each is the number of words of the text counted under
    it, at least 1; the one exception is the word [constructor]. *)
Theorem extracted_frequency_counts_occurrences (text : str) (r : rng) :
  exists extracted curated,
    keywords (fst (analyzeSEO text r)) = extracted ++ curated /\
    length curated = 8%nat /\
    Forall (fun kw =>
      (exists word, In word (tokenize_words text) /\ eligible word = true
                    /\ cleaned word = keyword kw) /\
      (keyword kw <> lit "constructor" ->
       frequency kw
         = VNumber (Z.of_nat (occurrences (keyword kw) (tokenize_words text))) /\
       (1 <= occurrences (keyword kw) (tokenize_words text))%nat)) extracted.
Proof.
  destruct (keywords_extracted_entries text r)
    as (extracted & curated & Hk & He & Hv & _).
  exists extracted, curated. split; [done|]. split.
  { apply (f_equal (@length str)) in Hv. by rewrite length_map in Hv. }
  apply Forall_forall. intros kw Hkw.
  apply extracted_entry_spec. rewrite <- He.
  apply list_elem_of_In in Hkw.
  by apply (in_map (fun k => (keyword k, frequency k))) in Hkw.
Qed.

Example frequency_scenario :
  map (fun kw => (keyword kw, frequency kw))
    (take 2 (keywords (fst (analyzeSEO
       (lit "Fresh bread, fresh BREAD and more Bread!") (constant_source 0)))))
  = [(lit "bread", VNumber 3); (lit "fresh", VNumber 2)].
Proof. vm_compute. reflexivity. Qed.

(** X8.  No keyword is listed twice: the extracted keywords are distinct
    keys of [wordFreq], the curated phrases are distinct, and a curated
    phrase has a space in it, which no extracted keyword has. *)
Theorem keywords_are_distinct (text : str) (r : rng) :
  NoDup (map keyword (keywords (fst (analyzeSEO text r)))).
Proof.
  destruct (keywords_extracted_then_curated text r)
    as (extracted & curated & -> & Hw & _ & _ & _ & Hc & _ & _).
  rewrite map_app, Hw, Hc. apply NoDup_app.
  split; [apply extracted_entries_NoDup|]. split.
  - intros k Hk Hv. apply list_elem_of_In in Hk, Hv.
    apply in_map_iff in Hk as ([k' v] & <- & Hin).
    destruct (extracted_entry_spec text k' v Hin) as [(word & _ & _ & <-) _].
    pose proof (cleaned_word_chars word) as Hchars. cbn [fst] in Hv.
    assert (Hsp : existsb (fun c => negb (is_word_char c)) (cleaned word) = true).
    { revert Hv. generalize (cleaned word). intros k Hv.
      repeat (destruct Hv as [<- | Hv]; [reflexivity|]). destruct Hv. }
    apply existsb_exists in Hsp as (c & Hc1 & Hc2).
    rewrite Forall_forall in Hchars. apply list_elem_of_In in Hc1.
    rewrite (Hchars c Hc1) in Hc2. done.
  - apply NoDup_ListNoDup.
    repeat (constructor; [cbn; intros Hin;
      repeat (destruct Hin as [Hin | Hin]; [discriminate Hin|]); destruct Hin|]).
    constructor.
Qed.

Lemma own_get_Some_In (o : object) (k : str) (v : value) :
  own_get o k = Some v -> In (k, v) o.
Proof.
  induction o as [|[k' v'] o IH]; cbn; [done|].
  destruct (str_eqb k' k) eqn:Hk.
  - apply str_eqb_eq in Hk as ->. intros [= ->]. by left.
  - intros H. right. by apply IH.
Qed.

Lemma decreasing_app (l1 l2 : list (str * value)) (x y : str * value) :
  decreasing (l1 ++ l2) -> In x l1 -> In y l2 ->
  (count_of y <= count_of x)%Z.
Proof.
  unfold decreasing. induction l1 as [|a l1 IH]; cbn; [done|].
  intros Hs [-> | Hx] Hy.
  - apply StronglySorted_inv in Hs as [_ Hall].
    rewrite Forall_forall in Hall. apply Hall.
    apply list_elem_of_In, in_or_app. by right.
  - apply StronglySorted_inv in Hs as [Hs _]. by apply IH.
Qed.

Lemma occurrences_of_word (word : str) (words : list str) :
  In word words -> eligible word = true ->
  (1 <= occurrences (cleaned word) words)%nat.
Proof.
  intros Hin He. unfold occurrences.
  assert (H : In word (List.filter
                (fun w => eligible w && str_eqb (cleaned w) (cleaned word)) words)).
  { apply filter_In. split; [done|]. by rewrite He, str_eqb_refl. }
  destruct (List.filter _ words); [done | cbn; lia].
Qed.

(** X9.  The extracted keywords are the most frequent ones.  In a text
    without the word [constructor], a counted word that is not among the
    extracted keywords is counted at most as often as each of them, and
    then there are 10 of them. *)
Theorem unlisted_words_are_not_more_frequent (text : str) (r : rng) :
  Forall (fun word => cleaned word <> lit "constructor") (tokenize_words text) ->
  exists extracted curated,
    keywords (fst (analyzeSEO text r)) = extracted ++ curated /\
    length curated = 8%nat /\
    forall word,
      In word (tokenize_words text) -> eligible word = true ->
      cleaned word <> lit "__proto__" ->
      In (cleaned word) (map keyword extracted) \/
      (length extracted = 10%nat /\
       Forall (fun kw =>
         (occurrences (cleaned word) (tokenize_words text)
          <= occurrences (keyword kw) (tokenize_words text))%nat) extracted).
Proof.
  intros Hno.
  destruct (keywords_extracted_then_curated text r)
    as (extracted & curated & Hk & Hw & Hf & _ & _ & Hc & _ & _).
  destruct (keywords_extracted_entries text r)
    as (extracted' & curated' & Hk' & He & Hv & _).
  assert (Hlen : length curated = length curated').
  { apply (f_equal (@length str)) in Hc, Hv. rewrite length_map in Hc, Hv.
    congruence. }
  rewrite Hk in Hk'. apply app_inj_2 in Hk' as [<- <-]; [|done].
  exists extracted, curated. split; [done|]. split.
  { apply (f_equal (@length str)) in Hc. by rewrite length_map in Hc. }
  intros word Hin Hel Hproto.
  set (words := tokenize_words text) in *.
  set (k := cleaned word) in *.
  assert (Hck : k <> lit "constructor")
    by (rewrite Forall_forall in Hno; apply Hno; by apply list_elem_of_In).
  pose proof (occurrences_of_word word words Hin Hel) as Hocc. fold k in Hocc.
  pose proof (word_frequencies_get words k Hck Hproto) as Hget.
  destruct (occurrences k words) as [|n] eqn:Hn; [lia|].
  apply own_get_Some_In in Hget.
  set (sorted := sort_entries (entries (word_frequencies words))).
  assert (Hsorted : In (k, VNumber (Z.of_nat (S n))) sorted).
  { apply list_elem_of_In. unfold sorted.
    rewrite sort_entries_Permutation, entries_Permutation.
    by apply list_elem_of_In. }
  assert (Hdec : decreasing sorted).
  { apply sort_entries_counts, entries_Forall. by apply fold_count_word_counts. }
  rewrite <- (take_drop 10 sorted) in Hsorted, Hdec.
  fold (extracted_entries text) in Hsorted, Hdec.
  apply in_app_or in Hsorted as [Htop | Hrest].
  - left. rewrite Hw. by apply (in_map fst) in Htop.
  - right. split.
    + rewrite <- (length_map (fun kw => (keyword kw, frequency kw))), He.
      unfold extracted_entries. fold words. fold sorted.
      rewrite length_take. destruct (drop 10 sorted) eqn:Hd; [done|].
      apply (f_equal (@length (str * value))) in Hd.
      rewrite length_drop in Hd. cbn in Hd. lia.
    + apply Forall_forall. intros kw Hkw.
      assert (Hx : In (keyword kw, frequency kw) (extracted_entries text)).
      { rewrite <- He. apply list_elem_of_In in Hkw.
        by apply (in_map (fun k => (keyword k, frequency k))) in Hkw. }
      pose proof (decreasing_app _ _ _ _ Hdec Hx Hrest) as Hle.
      destruct (extracted_entry_spec text _ _ Hx)
        as [(w & Hw1 & _ & Hw3) Hspec].
      destruct Hspec as [Hfreq _].
      { rewrite <- Hw3. rewrite Forall_forall in Hno. apply Hno.
        by apply list_elem_of_In. }
      unfold count_of in Hle. cbn [snd] in Hle. rewrite Hfreq in Hle.
      fold words in Hle. lia.
Qed.

Lemma no_constructor_check (words : list str) :
  forallb (fun word => negb (str_eqb (cleaned word) (lit "constructor"))) words
  = true ->
  Forall (fun word => cleaned word <> lit "constructor") words.
Proof.
  intros H. apply Forall_forall. intros word Hw.
  rewrite forallb_forall in H. apply list_elem_of_In in Hw.
  specialize (H word Hw). apply negb_true_iff in H.
  intros Heq. rewrite Heq, str_eqb_refl in H. done.
Qed.

Lemma unlisted_words_are_not_more_frequent_witness :
  exists extracted curated,
    keywords (fst (analyzeSEO (lit "Fresh bread, fresh BREAD and more Bread!")
                     (constant_source 0))) = extracted ++ curated /\
    length curated = 8%nat.
Proof.
  destruct (unlisted_words_are_not_more_frequent
              (lit "Fresh bread, fresh BREAD and more Bread!") (constant_source 0))
    as (extracted & curated & H1 & H2 & _).
  - apply no_constructor_check. vm_compute. reflexivity.
  - exists extracted, curated. exact (conj H1 H2).
Defined.

(** ** The numbers that are drawn *)

Lemma mapM_In {A B} (f : A -> Rand B) (l : list A) (r : rng) (y : B) :
  In y (fst (mapM f l r)) -> exists x r', In x l /\ y = fst (f x r').
Proof.
  revert r. induction l as [|x l IH]; intros r; cbn; [done|].
  unfold bind. destruct (f x r) as [y0 r1] eqn:Hf.
  specialize (IH r1). destruct (mapM f l r1) as [ys r2]. cbn in *.
  intros [<- | Hin].
  - exists x, r. split; [by left | by rewrite Hf].
  - destruct (IH Hin) as (x' & r' & Hx & Hy). exists x', r'. split; [by right | done].
Qed.

Lemma top_keyword_ranges (words : nat) (e : str * value) (r : rng) :
  (100 <= searchVolume (fst (top_keyword words e r)) < 10100)%Z /\
  (1 <= difficulty (fst (top_keyword words e r)) <= 100)%Z.
Proof.
  unfold top_keyword, bind.
  pose proof (random_below_range 10000 r ltac:(lia)) as Hsv.
  destruct (random_below 10000 r) as [sv r1].
  pose proof (random_below_range 100 r1 ltac:(lia)) as Hd.
  destruct (random_below 100 r1) as [d r2]. cbn in *. lia.
Qed.

Lemma suggested_keyword_ranges (k : str) (r : rng) :
  (exists n, relevance (fst (suggested_keyword k r)) = Some (inject_Z n)
             /\ (20 <= n < 100)%Z) /\
  (1000 <= searchVolume (fst (suggested_keyword k r)) < 51000)%Z /\
  (1 <= difficulty (fst (suggested_keyword k r)) <= 100)%Z.
Proof.
  unfold suggested_keyword, bind.
  pose proof (random_below_range 80 r ltac:(lia)) as Hrel.
  destruct (random_below 80 r) as [rel r1].
  pose proof (random_below_range 50000 r1 ltac:(lia)) as Hsv.
  destruct (random_below 50000 r1) as [sv r2].
  pose proof (random_below_range 100 r2 ltac:(lia)) as Hd.
  destruct (random_below 100 r2) as [d r3]. cbn in *.
  split; [exists (rel + 20)%Z; split; [done | lia] | lia].
Qed.

Lemma relevance_of_count (n : Z) (words : nat) :
  (1 <= n)%Z -> (0 < words)%nat ->
  exists q, relevance_of (VNumber n) words = Some q /\ (0 < q <= 100)%Q.
Proof.
  intros Hn Hw. unfold relevance_of. cbn. eexists. split; [reflexivity|].
  pose proof (num_pos words Hw) as Hpos.
  assert (H1 : (1 <= inject_Z n)%Q)
    by (change 1%Q with (inject_Z 1); by rewrite <- Zle_Qle).
  split; [|apply Q.le_min_l].
  apply Q.min_glb_lt; [lra|].
  apply Qmult_lt_0_compat; [|lra]. apply Qlt_shift_div_l; lra.
Qed.

(** X10.  The numbers of a keyword are in range whatever is drawn.  An
    extracted keyword has a search volume from 100 to 10099 and a
    difficulty from 1 to 100, and its relevance is above 0 and at most 100
    unless the keyword is [constructor]; a curated keyword has a whole
    relevance from 20 to 99, a search volume from 1000 to 50999 and a
    difficulty from 1 to 100. *)
Theorem keyword_numbers_in_range (text : str) (r : rng) :
  exists extracted curated,
    keywords (fst (analyzeSEO text r)) = extracted ++ curated /\
    length curated = 8%nat /\
    Forall (fun kw =>
      (100 <= searchVolume kw < 10100)%Z /\
      (1 <= difficulty kw <= 100)%Z /\
      (keyword kw <> lit "constructor" ->
       exists q, relevance kw = Some q /\ (0 < q <= 100)%Q)) extracted /\
    Forall (fun kw =>
      (exists n, relevance kw = Some (inject_Z n) /\ (20 <= n < 100)%Z) /\
      (1000 <= searchVolume kw < 51000)%Z /\
      (1 <= difficulty kw <= 100)%Z) curated.
Proof.
  rewrite analyzeSEO_keywords.
  set (n := length (tokenize_words text)).
  set (r1 := snd (mapM (top_keyword n) (extracted_entries text) r)).
  exists (fst (mapM (top_keyword n) (extracted_entries text) r)),
    (take 8 (fst (mapM suggested_keyword vocabulary r1))).
  split; [done|]. split; [by rewrite length_take, mapM_length|]. split.
  - apply Forall_forall. intros kw Hkw. apply list_elem_of_In in Hkw.
    apply mapM_In in Hkw as ([k v] & r' & Hin & ->).
    destruct (top_keyword_ranges n (k, v) r') as [Hsv Hd].
    split; [done|]. split; [done|].
    destruct (top_keyword_fields n (k, v) r') as (-> & _ & ->). cbn [fst snd].
    intros Hc.
    destruct (extracted_entry_spec text k v Hin) as [(word & Hw & _) Hspec].
    destruct (Hspec Hc) as [-> Hocc].
    apply relevance_of_count; [lia|].
    unfold n. destruct (tokenize_words text); [done | cbn; lia].
  - apply Forall_take, Forall_forall. intros kw Hkw.
    apply list_elem_of_In in Hkw.
    apply mapM_In in Hkw as (k & r' & _ & ->).
    apply suggested_keyword_ranges.
Qed.

(** ** Words, sentences and paragraphs of degenerate texts *)

Lemma concat_fields (sep : ascii -> bool) (b : bool) (s : str) :
  concat (fields sep b s) = List.filter (fun c => negb (sep c)) s.
Proof.
  revert b. induction s as [|c s IH]; intros b; [done|].
  cbn. destruct (sep c); cbn.
  - destruct b; cbn; apply IH.
  - by rewrite concat_push, IH.
Qed.

Lemma letters_nil (s : str) : letters s = [] <-> blank s.
Proof.
  unfold letters, blank. induction s as [|c s IH]; cbn.
  - split; [constructor | done].
  - destruct (is_space c) eqn:Hc; cbn.
    + rewrite IH. split; [by constructor | by inversion 1].
    + split; [done | inversion 1; congruence].
Qed.

Lemma blank_app (a b : str) : blank (a ++ b) <-> blank a /\ blank b.
Proof. apply Forall_app. Qed.

Lemma filter_nonblank_nil (l : list str) :
  List.filter nonblank l = [] <-> blank (concat l).
Proof.
  induction l as [|x l IH]; [split; [constructor | done]|].
  cbn [List.filter concat]. rewrite blank_app, <- IH, <- trim_nil.
  unfold nonblank at 1. destruct (trim x); cbn; [tauto|].
  split; [intros [=] | by intros [[=] _]].
Qed.

Lemma filter_nonempty_nil (l : list str) :
  List.filter (fun word => (0 <? length word)%nat) l = [] <-> concat l = [].
Proof.
  induction l as [|x l IH]; cbn; [done|].
  destruct x as [|c x]; cbn; [done|]. split; done.
Qed.

Lemma is_newline_space (c : ascii) : is_newline c = true -> is_space c = true.
Proof.
  unfold is_newline, is_space. intros H. apply N.eqb_eq in H. by rewrite H.
Qed.

(** A match of the blank-line pattern covers white space only. *)
Lemma blank_lines_spaces (s : str) (n : nat) :
  blank_lines s = Some n -> (n <= length s)%nat /\ blank (take n s).
Proof.
  revert n. induction s as [|c s IH]; intros n; cbn; [done|].
  destruct (is_space c) eqn:Hc; [|done].
  destruct (blank_lines s) as [m|].
  - intros [= <-]. destruct (IH m eq_refl) as [Hm Hb].
    split; [lia|]. cbn. by constructor.
  - destruct (is_newline c); [|done]. intros [= <-].
    split; [lia|]. cbn. rewrite take_0. by repeat constructor.
Qed.

(** Splitting into paragraphs drops white space only. *)
Lemma letters_paragraphs (k : nat) (s : str) :
  (k <= length s)%nat -> blank (take k s) ->
  letters (concat (paragraphs_from k s)) = letters s.
Proof.
  revert k. induction s as [|c s IH]; intros k Hk Hb; [done|].
  destruct k as [|k]; cbn [paragraphs_from].
  - destruct (is_newline c) eqn:Hnl.
    + destruct (blank_lines s) as [n|] eqn:Hbl.
      * destruct (blank_lines_spaces s n Hbl) as [Hn Hbn].
        cbn [concat app]. rewrite (IH n Hn Hbn).
        unfold letters. cbn. by rewrite (is_newline_space c Hnl).
      * rewrite concat_push. unfold letters in *. cbn.
        rewrite (IH 0%nat); [done | lia | constructor].
    + rewrite concat_push. unfold letters in *. cbn.
      rewrite (IH 0%nat); [done | lia | constructor].
  - cbn in Hk, Hb. inversion Hb as [|? ? Hc Hb']; subst.
    rewrite (IH k); [|lia | done]. unfold letters. cbn. by rewrite Hc.
Qed.


Lemma runs_bound (p : bool) (s : str) :
  (2 * runs p s <= length s + (if p then 1 else 0))%nat.
Proof.
  revert p. induction s as [|c s IH]; intros p; cbn [runs length]; [lia|].
  destruct (is_space c).
  - specialize (IH true). cbv iota in IH. destruct p; lia.
  - specialize (IH false). cbv iota in IH. destruct p; cbv iota; lia.
Qed.

(** X11.  A text has no word exactly when it is blank, and no paragraph
    exactly when it is blank; it has no sentence exactly when it holds
    nothing but white space and [.!?].  A text of [n] characters has at
    most [(n + 1) / 2] words. *)
Theorem counts_of_degenerate_texts (text : str) (r : rng) :
  let m := metrics (fst (analyzeSEO text r)) in
  (wordCount m = 0%nat <-> blank text) /\
  (paragraphCount m = 0%nat <-> blank text) /\
  (sentenceCount m = 0%nat <-> no_sentence text) /\
  (2 * wordCount m <= length text + 1)%nat.
Proof.
  intros m. subst m. rewrite analyzeSEO_metrics.
  cbn [wordCount paragraphCount sentenceCount].
  assert (Hlen0 : forall (l : list str), length l = 0%nat <-> l = [])
    by (intros []; cbn; split; congruence).
  split; [|split; [|split]].
  - rewrite Hlen0. unfold tokenize_words, split_on.
    rewrite filter_nonempty_nil, concat_fields_space. apply letters_nil.
  - rewrite Hlen0. unfold tokenize_paragraphs, split_paragraphs.
    rewrite filter_nonblank_nil, <- letters_nil, letters_paragraphs;
      [apply letters_nil | lia | constructor].
  - rewrite Hlen0. unfold tokenize_sentences, split_on, no_sentence.
    rewrite filter_nonblank_nil, concat_fields. unfold blank.
    induction text as [|c text IH]; cbn.
    + split; constructor.
    + destruct (is_punct c) eqn:Hc; cbn.
      * rewrite IH. split; [constructor; [by left | done] | by inversion 1].
      * rewrite !Forall_cons, IH. split; [intros [? ?]; split; [by right | done]|].
        intros [[? | ?] ?]; [congruence | done].
  - pose proof (proj1 (fields_runs text) false) as Hruns.
    unfold nonempty_count in Hruns. unfold tokenize_words, split_on.
    rewrite Hruns. pose proof (runs_bound true text) as Hb.
    cbv iota in Hb. lia.
Qed.

(** ** The readability advice, in words per sentence *)

Lemma average_above (w s : nat) (p q : Z) :
  (0 < q)%Z -> (0 < s)%nat ->
  (inject_Z p / inject_Z q < average w s)%Q <->
  (p * Z.of_nat s < q * Z.of_nat w)%Z.
Proof.
  intros Hq Hs. unfold average. destruct (Nat.ltb_spec 0 s) as [_|]; [|lia].
  pose proof (num_pos s Hs) as HS. unfold num in *.
  assert (HQ : (inject_Z 0 < inject_Z q)%Q) by (by rewrite <- Zlt_Qlt).
  change (inject_Z 0) with 0%Q in HQ.
  rewrite Zlt_Qlt, !inject_Z_mult.
  set (P := inject_Z p) in *. set (Q := inject_Z q) in *.
  set (W := inject_Z (Z.of_nat w)) in *. set (S := inject_Z (Z.of_nat s)) in *.
  clearbody P Q W S.
  assert (HP : (P / Q * Q == P)%Q) by (field; lra).
  assert (HW : (W / S * S == W)%Q) by (field; lra).
  set (x := (P / Q)%Q) in *. set (y := (W / S)%Q) in *. clearbody x y.
  assert (HQS : (0 < Q * S)%Q) by nra.
  assert (Hl : (P * S == x * (Q * S))%Q) by (rewrite <- HP; ring).
  assert (Hr : (Q * W == y * (Q * S))%Q) by (rewrite <- HW; ring).
  rewrite Hl, Hr. set (QS := (Q * S)%Q) in *. clearbody QS.
  split; intros H; nra.
Qed.

Lemma priority_by_average (a : Q) :
  (0 <= a)%Q ->
  let advice := readability_suggestion (readability_of a) in
  (priority advice = High <-> (9987 # 203 < a)%Q) /\
  (priority advice = Medium <-> (3987 # 203 < a)%Q /\ (a <= 9987 # 203)%Q) /\
  (priority advice = Low <-> (a <= 3987 # 203)%Q).
Proof.
  intros Ha advice. subst advice.
  destruct (readability_of_unclamped a Ha) as (Heq & _ & _).
  unfold readability_suggestion. cbn [priority].
  destruct (Qlt_le_dec (readability_of a) 30) as [H30|H30];
    [|destruct (Qlt_le_dec (readability_of a) 60) as [H60|H60]];
    rewrite Heq in *.
  - apply Q.max_lub_lt_iff in H30 as [_ H30].
    repeat split; try done; try lra; intros; exfalso; lra.
  - apply Q.max_lub_lt_iff in H60 as [_ H60].
    apply Q.max_le_iff in H30 as [H30|H30]; [lra|].
    repeat split; try done; try lra; intros; exfalso; lra.
  - apply Q.max_le_iff in H60 as [H60|H60]; [lra|].
    repeat split; try done; try lra; intros; exfalso; lra.
Qed.

(** X12.  The first suggestion is the readability advice, and its priority
    is decided by the words per sentence alone: high above 9987/203 (about
    49.2) words per sentence, medium above 3987/203 (about 19.6), low
    otherwise and whenever the text has no sentence. *)
Theorem readability_advice_by_sentence_length (text : str) (r : rng) :
  let a := fst (analyzeSEO text r) in
  let w := Z.of_nat (wordCount (metrics a)) in
  let s := Z.of_nat (sentenceCount (metrics a)) in
  exists advice rest,
    suggestions a = advice :: rest /\
    type advice = Readability /\
    (priority advice = High <-> (0 < s)%Z /\ (9987 * s < 203 * w)%Z) /\
    (priority advice = Medium <->
       (0 < s)%Z /\ (3987 * s < 203 * w)%Z /\ (203 * w <= 9987 * s)%Z) /\
    (priority advice = Low <-> s = 0%Z \/ (203 * w <= 3987 * s)%Z).
Proof.
  cbn zeta. rewrite analyzeSEO_suggestions, analyzeSEO_metrics.
  cbn [wordCount sentenceCount]. eexists _, _. split; [reflexivity|].
  split; [reflexivity|]. unfold raw_readability.
  set (w := length (tokenize_words text)).
  set (s := length (tokenize_sentences text)).
  destruct (priority_by_average (average w s) (average_nonneg w s))
    as (Hhigh & Hmedium & Hlow).
  rewrite Hhigh, Hmedium, Hlow. clear Hhigh Hmedium Hlow.
  destruct (Nat.eq_dec s 0) as [Hs|Hs].
  - rewrite Hs. unfold average. cbn [Nat.ltb Nat.leb].
    repeat split; try lia; try lra; intros; try lra; try lia.
  - assert (H1 := average_above w s 9987 203 eq_refl ltac:(lia)).
    assert (H2 := average_above w s 3987 203 eq_refl ltac:(lia)).
    assert (E1 : (inject_Z 9987 / inject_Z 203 == 9987 # 203)%Q) by reflexivity.
    assert (E2 : (inject_Z 3987 / inject_Z 203 == 3987 # 203)%Q) by reflexivity.
    rewrite E1 in H1. rewrite E2 in H2.
    set (x := average w s) in *. clearbody x.
    assert (H1' : (x <= 9987 # 203)%Q <-> (203 * Z.of_nat w <= 9987 * Z.of_nat s)%Z).
    { split; intros H.
      - apply Z.nlt_ge. intros Hn. apply H1 in Hn. lra.
      - apply Qnot_lt_le. intros Hn. apply H1 in Hn. lia. }
    assert (H2' : (x <= 3987 # 203)%Q <-> (203 * Z.of_nat w <= 3987 * Z.of_nat s)%Z).
    { split; intros H.
      - apply Z.nlt_ge. intros Hn. apply H2 in Hn. lra.
      - apply Qnot_lt_le. intros Hn. apply H2 in Hn. lia. }
    rewrite H1, H2, H1', H2'. repeat split; try tauto; try lia.
Qed.

(** ** The level the client shows *)

Lemma Math_round_below (x : Q) (n : Z) :
  (x + 0.5 < inject_Z n)%Q -> (Math_round x < n)%Z.
Proof.
  intros H. unfold Math_round. rewrite Zlt_Qlt.
  pose proof (Qfloor_le (x + 0.5)). lra.
Qed.

Lemma Math_round_above (x : Q) (n : Z) :
  (inject_Z n <= x + 0.5)%Q -> (n <= Math_round x)%Z.
Proof.
  intros H. unfold Math_round. rewrite <- (Qfloor_Z n).
  by apply Qfloor_resp_le.
Qed.


(** X13.  What [getReadabilityLevel] shows for the score of an analysis:
    never [Very Easy]; [Very Difficult] only beside advice of high
    priority; beside advice of high priority [Very Difficult] or
    [Difficult], and beside advice of low priority [Standard] or easier. *)
Theorem shown_level_and_advice (text : str) (r : rng) :
  let a := fst (analyzeSEO text r) in
  let shown := level (getReadabilityLevel (readabilityScore (metrics a))) in
  exists advice rest,
    suggestions a = advice :: rest /\
    shown <> "Very Easy"%string /\
    (shown = "Very Difficult"%string -> priority advice = High) /\
    (priority advice = High ->
     shown = "Very Difficult"%string \/ shown = "Difficult"%string) /\
    (priority advice = Low ->
     shown = "Standard"%string \/ shown = "Fairly Easy"%string \/
     shown = "Easy"%string).
Proof.
  cbn zeta. rewrite analyzeSEO_suggestions, analyzeSEO_metrics.
  cbn [readabilityScore]. eexists _, _. split; [reflexivity|].
  assert (Hx : (raw_readability text <= 79.935)%Q).
  { unfold raw_readability. apply readability_of_unclamped, average_nonneg. }
  set (x := raw_readability text) in *. clearbody x.
  assert (H80 : (Math_round x < 81)%Z) by (apply Math_round_below; unfold inject_Z; lra).
  unfold getReadabilityLevel, readability_suggestion. cbn [priority].
  destruct (Z.leb_spec 90 (Math_round x)) as [?|_]; [lia|].
  destruct (Qlt_le_dec x 30) as [H30|H30].
  - assert (Math_round x < 31)%Z by (apply Math_round_below; unfold inject_Z; lra).
    destruct (Z.leb_spec 80 (Math_round x)); [lia|].
    destruct (Z.leb_spec 70 (Math_round x)); [lia|].
    destruct (Z.leb_spec 60 (Math_round x)); [lia|].
    destruct (Z.leb_spec 50 (Math_round x)); [lia|].
    destruct (Z.leb_spec 30 (Math_round x)); cbn [level];
      repeat split; try done; auto.
  - assert (H29 : (30 <= Math_round x)%Z) by (apply Math_round_above; unfold inject_Z; lra).
    assert (Hshown : forall l : ReadabilityLevel,
      (if (30 <=? Math_round x)%Z
       then {| level := "Difficult"; color := "text-red-600" |} else l)
      = {| level := "Difficult"; color := "text-red-600" |}).
    { intros l. destruct (Z.leb_spec 30 (Math_round x)); [done | lia]. }
    rewrite Hshown. clear Hshown.
    destruct (Qlt_le_dec x 60) as [H60|H60].
    + destruct (Z.leb_spec 80 (Math_round x)); [exfalso|].
      { assert (Math_round x < 61)%Z by (apply Math_round_below; unfold inject_Z; lra). lia. }
      destruct (Z.leb_spec 70 (Math_round x)); [exfalso|].
      { assert (Math_round x < 61)%Z by (apply Math_round_below; unfold inject_Z; lra). lia. }
      destruct (Z.leb_spec 60 (Math_round x)), (Z.leb_spec 50 (Math_round x));
        cbn [level]; repeat split; done.
    + assert (60 <= Math_round x)%Z by (apply Math_round_above; unfold inject_Z; lra).
      destruct (Z.leb_spec 80 (Math_round x)), (Z.leb_spec 70 (Math_round x)),
        (Z.leb_spec 60 (Math_round x)); try lia;
        cbn [level]; repeat split; try done; auto.
Qed.

(** ** The split into sentences and separators *)

Lemma push_sentence (after_separator : bool) (c : ascii) (l : list str) :
  alternating false l -> is_punct c = false ->
  (after_separator = true -> is_space c = false) ->
  alternating after_separator (push c l).
Proof.
  intros Hl Hc Hs.
  assert (Hp : forall p, sentence false p -> sentence after_separator (c :: p)).
  { intros p [Hp _]. split; [by constructor|].
    intros Ha c' q [= <- <-]. by apply Hs. }
  inversion Hl; subst; cbn; constructor; auto.
Qed.

(** In the middle of a separator the first piece is the rest of that
    separator, and what follows is a split of its own. *)
Lemma pieces_alternating (s : str) :
  alternating false (pieces InSentence s) /\
  (exists marks spaces rest,
     pieces InPunct s = (marks ++ spaces) :: rest /\
     Forall (fun c => is_punct c = true) marks /\
     Forall (fun c => is_space c = true) spaces /\
     alternating true rest) /\
  (exists spaces rest,
     pieces InSpace s = spaces :: rest /\
     Forall (fun c => is_space c = true) spaces /\
     alternating true rest).
Proof.
  assert (Hnil : forall b, sentence b []) by (split; [constructor | done]).
  induction s as [|c s (IHs & (marks & spaces & rest & Hp & Hm & Hsp & Hrest)
                          & (spaces' & rest' & Hp' & Hsp' & Hrest'))].
  - split; [by constructor|]. split.
    + exists [], [], [[]]. repeat split; try constructor; done.
    + exists [], [[]]. repeat split; try constructor; done.
  - cbn [pieces]. rewrite Hp, Hp'. cbn [push].
    destruct (is_punct c) eqn:Hc; [|destruct (is_space c) eqn:Hc'].
    + split; [|split].
      * apply alternating_more; [done | | done].
        exists (c :: marks), spaces. repeat split; try done. by constructor.
      * exists (c :: marks), spaces, rest. repeat split; try done.
        by constructor.
      * destruct (is_space c) eqn:Hc'.
        -- exists (c :: spaces'), rest'. repeat split; try done. by constructor.
        -- exists [], ([] :: (c :: marks ++ spaces) :: rest).
           repeat split; try done. apply alternating_more; [done | | done].
           exists (c :: marks), spaces. repeat split; try done. by constructor.
    + split; [by apply push_sentence|]. split.
      * exists [], (c :: spaces'), rest'. repeat split; try done.
        by constructor.
      * exists (c :: spaces'), rest'. repeat split; try done. by constructor.
    + split; [by apply push_sentence|]. split.
      * exists [], [], (push c (pieces InSentence s)).
        repeat split; try done. by apply push_sentence.
      * exists [], (push c (pieces InSentence s)).
        repeat split; try done. by apply push_sentence.
Qed.

(** X14.  The split of a text at its sentence ends loses nothing: the
    pieces put together again are the text.  The pieces are in turn a
    sentence without any of [.!?] and a separator, a run of [.!?] with the
    white space after it, and the first and the last piece are sentences. *)
Theorem split_sentences_alternating (text : str) :
  concat (split_sentences text) = text /\
  alternating false (split_sentences text) /\
  exists t, length (split_sentences text) = (2 * t + 1)%nat.
Proof.
  split; [apply concat_pieces|]. split; [apply pieces_alternating|].
  apply (length_pieces InSentence).
Qed.

(** ** What the random draws do not touch *)

(** X15.  Two analyses of the same text differ in nothing but the numbers
    that are drawn: the metrics, the suggestions, and the keywords with
    their order and their frequencies are the same whatever
    [Math.random] returns. *)
Theorem analysis_independent_of_draws (text : str) (r r' : rng) :
  let a := fst (analyzeSEO text r) in
  let a' := fst (analyzeSEO text r') in
  metrics a = metrics a' /\
  suggestions a = suggestions a' /\
  map keyword (keywords a) = map keyword (keywords a') /\
  map frequency (keywords a) = map frequency (keywords a').
Proof.
  cbn zeta. rewrite !analyzeSEO_metrics, !analyzeSEO_suggestions.
  split; [done|]. split; [done|].
  destruct (keywords_extracted_then_curated text r)
    as (e1 & c1 & -> & Hk1 & Hf1 & _ & _ & Hc1 & Hz1 & _).
  destruct (keywords_extracted_then_curated text r')
    as (e2 & c2 & -> & Hk2 & Hf2 & _ & _ & Hc2 & Hz2 & _).
  rewrite !map_app. split; congruence.
Qed.

(** ** The inherited key [__proto__] *)

(** X16.  A word that is cleaned to [__proto__] is never a keyword,
    however often the text has it: the assignment to that key of
    [wordFreq] stores nothing. *)
Theorem proto_is_never_a_keyword (text : str) (r : rng) :
  ~ In (lit "__proto__") (map keyword (keywords (fst (analyzeSEO text r)))).
Proof.
  destruct (keywords_extracted_then_curated text r)
    as (extracted & curated & -> & Hw & _ & _ & _ & Hc & _ & _).
  rewrite map_app, Hw, Hc, in_app_iff. intros [Hin | Hin].
  - apply in_map_iff in Hin as ([k v] & Hk & Hin). cbn in Hk. subst k.
    apply extracted_entries_In in Hin.
    destruct (word_frequencies_keys (tokenize_words text)) as [_ Hproto].
    apply Hproto. by apply (in_map fst) in Hin.
  - cbn in Hin. repeat (destruct Hin as [Hin | Hin]; [discriminate Hin|]).
    destruct Hin.
Qed.

Example proto_scenario :
  map keyword (keywords (fst (analyzeSEO
    (lit "__proto__ __proto__ __proto__ bread") (constant_source 0))))
  = lit "bread" :: take 8 vocabulary.
Proof. vm_compute. reflexivity. Qed.

(** ** How many keywords are extracted *)

Lemma count_word_keeps_keys (wordFreq : object) (word k : str) :
  In k (map fst wordFreq) -> In k (map fst (count_word wordFreq word)).
Proof.
  intros Hin. unfold count_word. case_match; [|done].
  unfold set. case_match; [done|]. rewrite own_set_keys.
  case_match; [done|]. apply in_or_app. by left.
Qed.

Lemma count_word_adds_key (wordFreq : object) (word : str) :
  eligible word = true -> cleaned word <> lit "__proto__" ->
  In (cleaned word) (map fst (count_word wordFreq word)).
Proof.
  unfold eligible, count_word. fold (cleaned word). intros -> Hproto.
  unfold set. destruct (str_eqb (cleaned word) (lit "__proto__")) eqn:Heq;
    [by apply str_eqb_eq in Heq|].
  rewrite own_set_keys.
  destruct (own_get wordFreq (cleaned word)) as [v|] eqn:Hget.
  - apply own_get_Some_In in Hget. by apply (in_map fst) in Hget.
  - apply in_or_app. right. by left.
Qed.

Lemma word_frequencies_has_key (words : list str) (word : str) :
  In word words -> eligible word = true -> cleaned word <> lit "__proto__" ->
  In (cleaned word) (map fst (word_frequencies words)).
Proof.
  intros Hin He Hproto. unfold word_frequencies.
  assert (Hkeep : forall l o,
    In (cleaned word) (map fst o) ->
    In (cleaned word) (map fst (fold_left count_word l o))).
  { induction l as [|w l IH]; intros o Ho; [done|].
    cbn. by apply IH, count_word_keeps_keys. }
  generalize (@nil (str * value)).
  induction words as [|w words IH]; intros o; [done|].
  cbn. destruct Hin as [-> | Hin].
  - by apply Hkeep, count_word_adds_key.
  - by apply IH.
Qed.

Lemma length_word_frequencies (words : list str) :
  length (word_frequencies words) = length (counted_keys words).
Proof.
  rewrite <- (length_map fst). apply Permutation_length.
  destruct (word_frequencies_keys words) as [Hnd Hproto].
  apply NoDup_Permutation; [done | |].
  - apply NoDup_ListNoDup, List.NoDup_nodup.
  - intros k. rewrite !list_elem_of_In. unfold counted_keys.
    rewrite nodup_In. split.
    + intros Hk. apply in_map_iff.
      destruct (word_frequencies_key_origin words k Hk) as (word & Hin & He & <-).
      exists word. split; [done|]. apply filter_In. split; [done|].
      rewrite He. cbn. destruct (str_eqb _ _) eqn:Heq; [|done].
      apply str_eqb_eq in Heq. by rewrite Heq in Hk.
    + intros Hk. apply in_map_iff in Hk as (word & <- & Hin).
      apply filter_In in Hin as [Hin Hc].
      apply andb_true_iff in Hc as [He Hp].
      apply word_frequencies_has_key; [done | done|].
      intros Heq. by rewrite Heq in Hp.
Qed.

Lemma length_extracted_entries (text : str) :
  length (extracted_entries text)
  = Nat.min 10 (length (counted_keys (tokenize_words text))).
Proof.
  unfold extracted_entries.
  rewrite length_take, (Permutation_length (sort_entries_Permutation _)),
    (Permutation_length (entries_Permutation _)), length_word_frequencies.
  done.
Qed.

(** X17.  The number of keywords extracted is the number of different keys
    under which words of the text are counted, 10 at the most, and the
    list has the 8 curated phrases after them.  The advice on keywords has
    high priority exactly when the text has fewer than 5 such keys. *)
Theorem keyword_diversity_advice (text : str) (r : rng) :
  let a := fst (analyzeSEO text r) in
  let keys := counted_keys (tokenize_words text) in
  length (keywords a) = (Nat.min 10 (length keys) + 8)%nat /\
  exists a1 a2 advice,
    suggestions a = [a1; a2; advice] /\
    type advice = Keywords /\
    (priority advice = High <-> (length keys < 5)%nat) /\
    (priority advice = Low <-> (5 <= length keys)%nat).
Proof.
  cbn zeta. split.
  - destruct (keywords_extracted_then_curated text r)
      as (extracted & curated & -> & Hw & _ & _ & _ & Hc & _ & _).
    apply (f_equal (@length str)) in Hw, Hc.
    rewrite !length_map in Hw, Hc. rewrite length_take in Hc.
    rewrite length_app, Hw, Hc, length_map, length_extracted_entries. done.
  - rewrite analyzeSEO_suggestions. eexists _, _, _. split; [reflexivity|].
    split; [reflexivity|]. unfold keywords_suggestion. cbn [priority].
    rewrite length_extracted_entries.
    destruct (Nat.ltb_spec (Nat.min 10 (length (counted_keys (tokenize_words text)))) 5);
      split; split; try done; lia.
Qed.

(** ** The order of the extracted keywords *)

Lemma sorted_by_occurrences (words : list str) (l : list Keyword) :
  Forall (fun kw =>
    frequency kw = VNumber (Z.of_nat (occurrences (keyword kw) words))) l ->
  decreasing (map (fun k => (keyword k, frequency k)) l) ->
  StronglySorted
    (fun k1 k2 =>
       (occurrences (keyword k2) words <= occurrences (keyword k1) words)%nat) l.
Proof.
  unfold decreasing. induction 1 as [|kw l Hkw Hl IH]; cbn; [constructor|].
  intros Hs. apply StronglySorted_inv in Hs as [Hs Hall].
  constructor; [by apply IH|].
  rewrite List.Forall_map in Hall. unfold count_of in Hall. cbn [snd] in Hall.
  rewrite Hkw in Hall. clear IH Hs.
  induction Hl as [|kw' l Hkw' Hl IH]; [constructor|].
  apply List.Forall_cons_iff in Hall as [Hle Hall].
  rewrite Hkw' in Hle. constructor; [lia | by apply IH].
Qed.

(** X18.  In a text without the word [constructor], the extracted keywords
    come in the order of how often the text has them, the most frequent
    one first, and the curated phrases follow in the order of the
    vocabulary with frequency 0. *)
Theorem keywords_by_decreasing_occurrences (text : str) (r : rng) :
  Forall (fun word => cleaned word <> lit "constructor") (tokenize_words text) ->
  exists extracted curated,
    keywords (fst (analyzeSEO text r)) = extracted ++ curated /\
    map keyword curated = take 8 vocabulary /\
    map frequency curated = repeat (VNumber 0) 8 /\
    StronglySorted
      (fun k1 k2 =>
         (occurrences (keyword k2) (tokenize_words text)
          <= occurrences (keyword k1) (tokenize_words text))%nat) extracted.
Proof.
  intros Hno.
  destruct (keywords_extracted_entries text r)
    as (extracted & curated & Hk & He & Hc & Hz).
  exists extracted, curated. repeat split; [done..|].
  apply sorted_by_occurrences.
  - apply Forall_forall. intros kw Hkw.
    assert (Hx : In (keyword kw, frequency kw) (extracted_entries text)).
    { rewrite <- He. apply list_elem_of_In in Hkw.
      by apply (in_map (fun k => (keyword k, frequency k))) in Hkw. }
    destruct (extracted_entry_spec text _ _ Hx) as [(w & Hw1 & _ & Hw3) Hspec].
    apply Hspec. rewrite <- Hw3. rewrite Forall_forall in Hno. apply Hno.
    by apply list_elem_of_In.
  - rewrite He. by apply extracted_entries_counts.
Qed.

Lemma keywords_by_decreasing_occurrences_witness :
  exists extracted curated,
    keywords (fst (analyzeSEO (lit "Bread and butter: fresh bread, warm bread.")
                     (constant_source 0))) = extracted ++ curated /\
    map keyword curated = take 8 vocabulary.
Proof.
  destruct (keywords_by_decreasing_occurrences
              (lit "Bread and butter: fresh bread, warm bread.") (constant_source 0))
    as (extracted & curated & H1 & H2 & _).
  - apply no_constructor_check. vm_compute. reflexivity.
  - exists extracted, curated. exact (conj H1 H2).
Defined.
